(** * bf.py: a run-length collapsing Brainfuck parser and its executor

    Shallow embedding of [src/bf.py] and the properties of its parser
    ([parse]) and of its fetch-decode-execute loop ([run]).

    Conventions of the embedding:
    - a Python [int] is a [Z];
    - a Python [str] is the list of its code points ([str := list Z]);
      [ord] and [chr] convert between a one-character string and its code;
    - a Python [list] is a Rocq [list], indexed the way Python indexes it
      (negative indices count from the end, anything else out of range raises
      [IndexError]); [append] adds at the end and [pop] removes from the end;
    - code that can raise returns a [result]. *)

From Equations Require Import Equations.
From Stdlib Require Import ZArith List Bool Lia String Ascii.
Import ListNotations.
Local Open Scope Z_scope.

(** ** Strings *)

Definition str := list Z.

Definition ord_ascii (a : ascii) : Z := Z.of_N (N_of_ascii a).

(** A literal of the source, as the list of its code points. *)
Definition lit (s : string) : str := map ord_ascii (list_ascii_of_string s).

Abbreviation len l := (Z.of_nat (List.length l)).

(** ** class BFToken(Enum) *)

Inductive BFToken : Type :=
| MoveRight
| MoveLeft
| JumpForward
| JumpBackward
| Incr
| Decr
| ReadStdIn
| PutStdOut.

Definition BFToken_eq_dec (a b : BFToken) : {a = b} + {a <> b}.
Proof. decide equality. Defined.

Definition BFToken_eqb (a b : BFToken) : bool :=
  if BFToken_eq_dec a b then true else false.

(** The value of each member: its source symbol. *)
Definition BFToken_value (t : BFToken) : Z :=
  match t with
  | MoveRight => ord_ascii ">"
  | MoveLeft => ord_ascii "<"
  | JumpForward => ord_ascii "["
  | JumpBackward => ord_ascii "]"
  | Incr => ord_ascii "+"
  | Decr => ord_ascii "-"
  | ReadStdIn => ord_ascii ","
  | PutStdOut => ord_ascii "."
  end.

Definition BFToken_members : list BFToken :=
  [MoveRight; MoveLeft; JumpForward; JumpBackward; Incr; Decr; ReadStdIn; PutStdOut].

(** [BFToken.get]: the member whose value is [token], [None] when the
    by-value lookup [cls(token)] raises [ValueError]. *)
Definition BFToken_get (token : Z) : option BFToken :=
  find (fun t => BFToken_value t =? token) BFToken_members.

(** ** class CollapsedToken(NamedTuple) *)

(** [value] is an [int] or [None]. *)
Record CollapsedToken : Type := mkCollapsedToken {
  token : BFToken;
  value : option Z
}.

(** [opened._replace(value=v)] *)
Definition _replace (t : CollapsedToken) (v : option Z) : CollapsedToken :=
  {| token := token t; value := v |}.

(** ** Exceptions and the error monad *)

(** The argument [MismatchedBrackets] is raised with: a position (line 56:
    [loc]; line 81: [bracket_stack.pop()]) or the message of line 62 built
    from the token found. *)
Inductive mismatch_arg : Type :=
| Position (n : Z)
| ExpectedEmptyJumpForward (opened : CollapsedToken).

Inductive exn : Type :=
| MismatchedBrackets (arg : mismatch_arg)
| IndexError
| TypeError
| ValueError.

Inductive result (A : Type) : Type :=
| Ok (a : A)
| Raise (e : exn).
Arguments Ok {A} a.
Arguments Raise {A} e.

Definition bind {A B : Type} (m : result A) (k : A -> result B) : result B :=
  match m with
  | Ok a => k a
  | Raise e => Raise e
  end.

Notation "x <- m ;; k" := (bind m (fun x => k))
  (at level 61, m at next level, right associativity).
Notation "' pat <- m ;; k" := (bind m (fun x => match x with pat => k end))
  (at level 61, pat pattern, m at next level, right associativity).

(** ** Python lists *)

Section PyList.
Context {A : Type}.

(** The index Python resolves [i] to: negative indices count from the end. *)
Definition py_index (l : list A) (i : Z) : Z :=
  if i <? 0 then i + len l else i.

(** [l[i]] *)
Definition py_get (l : list A) (i : Z) : result A :=
  let j := py_index l i in
  if (0 <=? j) && (j <? len l) then
    match nth_error l (Z.to_nat j) with
    | Some x => Ok x
    | None => Raise IndexError
    end
  else Raise IndexError.

Fixpoint set_nth (l : list A) (n : nat) (x : A) : list A :=
  match l, n with
  | [], _ => []
  | _ :: r, O => x :: r
  | y :: r, S n' => y :: set_nth r n' x
  end.

(** [l[i] = x] *)
Definition py_set (l : list A) (i : Z) (x : A) : result (list A) :=
  let j := py_index l i in
  if (0 <=? j) && (j <? len l) then Ok (set_nth l (Z.to_nat j) x)
  else Raise IndexError.

(** [l.pop()]: the last element and the list without it. *)
Definition py_pop (l : list A) : result (A * list A) :=
  match rev l with
  | [] => Raise IndexError
  | x :: r => Ok (x, rev r)
  end.

(** [not l] *)
Definition is_empty (l : list A) : bool :=
  match l with
  | [] => true
  | _ :: _ => false
  end.
End PyList.

Definition is_None {A : Type} (o : option A) : bool :=
  match o with
  | None => true
  | Some _ => false
  end.

(** An operand that must be an [int]: arithmetic on [None] raises. *)
Definition as_int (o : option Z) : result Z :=
  match o with
  | Some n => Ok n
  | None => Raise TypeError
  end.

Definition inspect {A : Type} (x : A) : {y : A | x = y} := exist _ x eq_refl.

(** ** def to_u8(value) *)

Definition to_u8 (value : Z) : Z := value mod 255.

(** ** def parse(prog) *)

(** The locals of [parse] that live across iterations of its outer loop. *)
Record parser : Type := mkParser {
  scan_loc : Z;
  tokens : list CollapsedToken;
  bracket_stack : list Z
}.

(** The guard of the inner loop, line 74:
    [loc < length and symbol == prog[loc]]. *)
Definition run_continues (prog : str) (symbol : Z) (loc : Z) : result bool :=
  if loc <? len prog then
    c <- py_get prog loc ;;
    Ok (symbol =? c)
  else Ok false.

(** While the guard holds the scan position is inside the text, so the
    inner loop terminates. *)
Lemma run_continues_lt prog symbol loc :
  run_continues prog symbol loc = Ok true -> loc < len prog.
Proof.
  unfold run_continues. destruct (loc <? len prog) eqn:E.
  - intros _. now apply Z.ltb_lt.
  - discriminate.
Qed.

(** The inner loop, lines 74-76: returns the final [(loc, count)]. *)
Equations? count_run (prog : str) (symbol : Z) (loc count : Z) : result (Z * Z)
  by wf (Z.to_nat (len prog - loc)) lt :=
  count_run prog symbol loc count with inspect (run_continues prog symbol loc) := {
    | exist _ (Ok true) Hc => count_run prog symbol (loc + 1) (count + 1)
    | exist _ (Ok false) _ => Ok (loc, count)
    | exist _ (Raise e) _ => Raise e }.
Proof. apply run_continues_lt in Hc. lia. Qed.

(** One iteration of the outer loop, lines 47-78. *)
Definition parse_body (prog : str) (st : parser) : result parser :=
  let loc := scan_loc st in
  let tokens := tokens st in
  let bracket_stack := bracket_stack st in
  symbol <- py_get prog loc ;;
  let op := BFToken_get symbol in
  let loc := loc + 1 in
  match op with
  | None => Ok (mkParser loc tokens bracket_stack)
  | Some op =>
      '(tokens, bracket_stack) <-
        (if BFToken_eqb op JumpBackward then
           if is_empty bracket_stack then
             Raise (MismatchedBrackets (Position loc))
           else
             '(open_idx, bracket_stack) <- py_pop bracket_stack ;;
             opened <- py_get tokens open_idx ;;
             if negb (BFToken_eqb (token opened) JumpForward)
                || negb (is_None (value opened))
             then Raise (MismatchedBrackets (ExpectedEmptyJumpForward opened))
             else
               tokens <- py_set tokens open_idx
                           (_replace opened (Some (len tokens))) ;;
               Ok (tokens ++ [mkCollapsedToken op (Some open_idx)],
                   bracket_stack)
         else Ok (tokens, bracket_stack)) ;;
      '(tokens, bracket_stack) <-
        (if BFToken_eqb op JumpForward then
           Ok (tokens ++ [mkCollapsedToken op None],
               bracket_stack ++ [len tokens])
         else Ok (tokens, bracket_stack)) ;;
      if negb (existsb (BFToken_eqb op) [JumpBackward; JumpForward]) then
        '(loc, count) <- count_run prog symbol loc 1 ;;
        Ok (mkParser loc (tokens ++ [mkCollapsedToken op (Some count)])
              bracket_stack)
      else Ok (mkParser loc tokens bracket_stack)
  end.

(** Each iteration of either loop moves the scan position forward; this is
    what makes [parse] terminate. *)
Lemma count_run_loc prog symbol loc count loc' count' :
  count_run prog symbol loc count = Ok (loc', count') -> loc <= loc'.
Proof.
  funelim (count_run prog symbol loc count); intros E.
  - apply H in E. lia.
  - inversion E; subst. lia.
  - discriminate.
Qed.

Lemma parse_body_loc prog st st' :
  parse_body prog st = Ok st' -> scan_loc st < scan_loc st'.
Proof.
  unfold parse_body, bind.
  destruct (py_get prog (scan_loc st)) as [symbol|]; [|discriminate].
  destruct (BFToken_get symbol) as [op|].
  2: { intros [= <-]. simpl. lia. }
  repeat match goal with
         | |- context [match ?x with _ => _ end] =>
             lazymatch x with
             | count_run _ _ _ _ => fail
             | _ => destruct x eqn:?; try discriminate
             end
         end;
    try (intros [= <-]; simpl; lia).
  all: destruct (count_run prog symbol (scan_loc st + 1) 1) as [[loc1 count1]|] eqn:Ec;
    try discriminate; intros [= <-]; simpl; apply count_run_loc in Ec; lia.
Qed.

(** The outer loop, line 46. *)
Equations? parse_loop (prog : str) (st : parser) : result parser
  by wf (Z.to_nat (len prog - scan_loc st)) lt :=
  parse_loop prog st with inspect (scan_loc st <? len prog) := {
    | exist _ false _ => Ok st
    | exist _ true Hlt with inspect (parse_body prog st) := {
        | exist _ (Ok st') Hbody => parse_loop prog st'
        | exist _ (Raise e) _ => Raise e } }.
Proof. apply parse_body_loc in Hbody. apply Z.ltb_lt in Hlt. lia. Qed.

(** [parse]: the loop from the initial locals of lines 41-44, then the
    check of lines 80-83. *)
Definition parse (prog : str) : result (list CollapsedToken) :=
  st <- parse_loop prog (mkParser 0 [] []) ;;
  if negb (is_empty (bracket_stack st)) then
    '(idx, _) <- py_pop (bracket_stack st) ;;
    Raise (MismatchedBrackets (Position idx))
  else Ok (tokens st).

(** ** def run(ops, stdin, stdout) *)

Definition TAPE_SIZE : Z := 30000.

(** The locals of [run] that live across iterations of its loop; [stdout] is
    what the run has written to the sink so far. *)
Record state : Type := mkState {
  loc : Z;
  ptr : Z;
  tape : list Z;
  stdin_iter : str;
  stdout : str
}.

Definition set_loc (st : state) (v : Z) : state :=
  mkState v (ptr st) (tape st) (stdin_iter st) (stdout st).
Definition set_ptr (st : state) (v : Z) : state :=
  mkState (loc st) v (tape st) (stdin_iter st) (stdout st).
Definition set_tape (st : state) (v : list Z) : state :=
  mkState (loc st) (ptr st) v (stdin_iter st) (stdout st).
Definition set_stdin_iter (st : state) (v : str) : state :=
  mkState (loc st) (ptr st) (tape st) v (stdout st).
Definition set_stdout (st : state) (v : str) : state :=
  mkState (loc st) (ptr st) (tape st) (stdin_iter st) v.

(** [ord(c)] of a one-character string: its code point. *)
Definition ord (c : Z) : Z := c.

(** [chr(i)]: raises [ValueError] outside [range(0x110000)]. *)
Definition chr (i : Z) : result Z :=
  if (0 <=? i) && (i <? 1114112) then Ok i else Raise ValueError.

(** [next(stdin_iter, '\0')]: the next character and the advanced iterator;
    an exhausted iterator stays exhausted and the default is returned. *)
Definition next (it : str) (default : Z) : Z * str :=
  match it with
  | [] => (default, [])
  | c :: rest => (c, rest)
  end.

(** [for _ in range(n): body], for a body that can raise. *)
Fixpoint for_range (n : nat) (body : state -> result state) (st : state)
  : result state :=
  match n with
  | O => Ok st
  | S n' => st' <- body st ;; for_range n' body st'
  end.

(** [range(n)] has [n] elements, none when [n <= 0]. *)
Definition range_len (n : Z) : nat := Z.to_nat n.

(** Line 119: [tape[ptr] = ord(next(stdin_iter, '\0'))] *)
Definition read_one (st : state) : result state :=
  let '(c, it) := next (stdin_iter st) 0 in
  let st := set_stdin_iter st it in
  tape' <- py_set (tape st) (ptr st) (ord c) ;;
  Ok (set_tape st tape').

(** Line 123: [stdout.write(chr(tape[ptr]))] *)
Definition write_one (st : state) : result state :=
  cell <- py_get (tape st) (ptr st) ;;
  c <- chr cell ;;
  Ok (set_stdout st (stdout st ++ [c])).

(** The effect of one instruction, lines 99-131: the eight independent
    [if]s on [op.token]. *)
Definition execute (op : CollapsedToken) (st : state) : result state :=
  st <- (if BFToken_eqb (token op) MoveRight then
           v <- as_int (value op) ;;
           let move_to := v + ptr st in
           let move_to :=
             if move_to >? TAPE_SIZE - 1 then move_to mod TAPE_SIZE
             else move_to in
           Ok (set_ptr st move_to)
         else Ok st) ;;
  st <- (if BFToken_eqb (token op) MoveLeft then
           v <- as_int (value op) ;;
           let move_to := ptr st - v in
           let move_to :=
             if move_to <? 0 then move_to mod TAPE_SIZE else move_to in
           Ok (set_ptr st move_to)
         else Ok st) ;;
  st <- (if BFToken_eqb (token op) Incr then
           cell <- py_get (tape st) (ptr st) ;;
           v <- as_int (value op) ;;
           tape' <- py_set (tape st) (ptr st) (to_u8 (cell + v)) ;;
           Ok (set_tape st tape')
         else Ok st) ;;
  st <- (if BFToken_eqb (token op) Decr then
           cell <- py_get (tape st) (ptr st) ;;
           v <- as_int (value op) ;;
           tape' <- py_set (tape st) (ptr st) (to_u8 (cell - v)) ;;
           Ok (set_tape st tape')
         else Ok st) ;;
  st <- (if BFToken_eqb (token op) ReadStdIn then
           n <- as_int (value op) ;;
           for_range (range_len n) read_one st
         else Ok st) ;;
  st <- (if BFToken_eqb (token op) PutStdOut then
           n <- as_int (value op) ;;
           for_range (range_len n) write_one st
         else Ok st) ;;
  st <- (if BFToken_eqb (token op) JumpForward then
           cell <- py_get (tape st) (ptr st) ;;
           if cell =? 0 then
             v <- as_int (value op) ;;
             Ok (set_loc st v)
           else Ok st
         else Ok st) ;;
  (if BFToken_eqb (token op) JumpBackward then
     cell <- py_get (tape st) (ptr st) ;;
     if negb (cell =? 0) then
       v <- as_int (value op) ;;
       Ok (set_loc st v)
     else Ok st
   else Ok st).

(** One iteration of the loop, lines 97-133: fetch [ops[loc]], execute it,
    then [loc += 1]. *)
Definition step (ops : list CollapsedToken) (st : state) : result state :=
  op <- py_get ops (loc st) ;;
  st <- execute op st ;;
  Ok (set_loc st (loc st + 1)).

(** How a bounded run of the loop ends: the loop guard fails ([Halted]), an
    exception escapes ([Raised]), or the loop is still running when the
    bound is reached ([Running]). *)
Inductive outcome : Type :=
| Halted (st : state)
| Raised (e : exn)
| Running (st : state).

(** The loop of line 96, for at most [fuel] iterations. *)
Fixpoint run_loop (fuel : nat) (ops : list CollapsedToken) (st : state)
  : outcome :=
  if loc st <? len ops then
    match fuel with
    | O => Running st
    | S fuel' =>
        match step ops st with
        | Ok st' => run_loop fuel' ops st'
        | Raise e => Raised e
        end
    end
  else Halted st.

(** Lines 90-94. *)
Definition initial (stdin : str) : state :=
  mkState 0 0 (repeat 0 (Z.to_nat TAPE_SIZE)) stdin [].

Definition run (fuel : nat) (ops : list CollapsedToken) (stdin : str)
  : outcome :=
  run_loop fuel ops (initial stdin).

(** ** def bf_to_one_line(prog) *)

(** [prog.split('\n')]: the pieces between newlines, [cur] being the piece
    under construction. *)
Fixpoint split_lines (cur : str) (prog : str) : list str :=
  match prog with
  | [] => [cur]
  | c :: rest =>
      if c =? 10 then cur :: split_lines [] rest
      else split_lines (cur ++ [c]) rest
  end.

Definition bf_to_one_line (prog : str) : str :=
  List.concat (split_lines [] prog).

(** ** def run_bf(prog, stdout, stdin) *)

(** [stdin] defaults to the empty string; what is written to [stdout] is
    the [stdout] of the final state. *)

Definition run_bf (fuel : nat) (prog : str) (stdin : str) : outcome :=
  match parse (bf_to_one_line prog) with
  | Ok ops => run fuel ops stdin
  | Raise e => Raised e
  end.

Definition hello_world : str :=
  lit "++++++++[>++++[>++>+++>+++>+<<<<-]>+>+>->>+[<]<-]>>.>---.+++++++..+++.>>.<-.<.+++.------.--------.>>+.>++.".

Definition halted_stdout (o : outcome) : option str :=
  match o with
  | Halted st => Some (stdout st)
  | _ => None
  end.

(** ** Specification vocabulary *)

Definition kinds (ts : list CollapsedToken) : list BFToken := map token ts.

(** Reading [JumpForward] as an opening and [JumpBackward] as a closing
    parenthesis, [balanced_from depth ks] holds when [ks] closes [depth]
    pending openers and is otherwise properly nested. *)
Fixpoint balanced_from (depth : nat) (ks : list BFToken) : bool :=
  match ks with
  | [] => Nat.eqb depth 0
  | JumpForward :: r => balanced_from (S depth) r
  | JumpBackward :: r =>
      match depth with
      | O => false
      | S d => balanced_from d r
      end
  | _ :: r => balanced_from depth r
  end.

Definition balanced (ks : list BFToken) : bool := balanced_from 0 ks.

(** [l[lo:hi]] for [0 <= lo <= hi]. *)
Definition slice {A : Type} (l : list A) (lo hi : Z) : list A :=
  firstn (Z.to_nat (hi - lo)) (skipn (Z.to_nat lo) l).

(** The jump-if-zero at [i] and the jump-if-nonzero at [j] point at each
    other and enclose a balanced segment: they are matching parentheses. *)
Definition matched (ts : list CollapsedToken) (i j : Z) : Prop :=
  0 <= i < j /\
  py_get ts i = Ok (mkCollapsedToken JumpForward (Some j)) /\
  py_get ts j = Ok (mkCollapsedToken JumpBackward (Some i)) /\
  balanced (slice (kinds ts) (i + 1) j) = true.

(** A jump-if-zero whose target is still [None]. *)
Definition unclosed (ts : list CollapsedToken) (i : Z) : Prop :=
  0 <= i /\ py_get ts i = Ok (mkCollapsedToken JumpForward None).

Definition is_bracket (t : BFToken) : bool :=
  existsb (BFToken_eqb t) [JumpBackward; JumpForward].

(** Decollapsing: a bracket is one symbol, any other instruction [(kind, n)]
    is [n] copies of its symbol. *)
Definition expand (t : CollapsedToken) : str :=
  if is_bracket (token t) then [BFToken_value (token t)]
  else
    match value t with
    | Some n => repeat (BFToken_value (token t)) (Z.to_nat n)
    | None => []
    end.

Definition decollapse (ts : list CollapsedToken) : str :=
  flat_map expand ts.

(** The characters of the text that are instruction symbols. *)
Definition is_symbol (c : Z) : bool :=
  match BFToken_get c with
  | Some _ => true
  | None => false
  end.

(** The instruction of each instruction symbol of a text, in order. *)
Definition lex (prog : str) : list BFToken :=
  flat_map (fun c => match BFToken_get c with
                     | Some t => [t]
                     | None => []
                     end) prog.

(** A collapsed instruction that is not a bracket carries a run length of
    at least one. *)
Definition run_length_ok (t : CollapsedToken) : Prop :=
  is_bracket (token t) = false -> exists n, value t = Some n /\ 1 <= n.

(** Among the jump-if-zero instructions still unresolved, the one opened
    first (outermost) and the one opened last (innermost). *)
Definition outermost_unclosed (ts : list CollapsedToken) (i : Z) : Prop :=
  unclosed ts i /\ forall k, unclosed ts k -> i <= k.

Definition innermost_unclosed (ts : list CollapsedToken) (i : Z) : Prop :=
  unclosed ts i /\ forall k, unclosed ts k -> k <= i.

(** The states the outer loop of [parse] goes through on [prog]. *)
Inductive scanning (prog : str) : parser -> Prop :=
| scanning_start : scanning prog (mkParser 0 [] [])
| scanning_next st st' :
    scanning prog st ->
    scan_loc st < len prog ->
    parse_body prog st = Ok st' ->
    scanning prog st'.

(** The range of values that [to_u8] maps into. *)
Definition in_cell_range (c : Z) : Prop := 0 <= c <= 254.

(** The data pointer indexes a cell of a tape of [TAPE_SIZE] cells. *)
Definition tape_ok (st : state) : Prop :=
  0 <= ptr st < TAPE_SIZE /\ len (tape st) = TAPE_SIZE.

(** The step from [st] to [st'] executed the instruction under the
    instruction pointer, reaching [st1], and then added one to the pointer;
    executing left the pointer where it was (not a jump, or a jump not
    taken) or at the index of the matched partner (a jump taken). *)
Definition advances (ops : list CollapsedToken) (st st' : state) : Prop :=
  exists op st1,
    py_get ops (loc st) = Ok op /\ execute op st = Ok st1 /\
    loc st' = loc st1 + 1 /\
    match token op with
    | JumpForward =>
        exists cell, py_get (tape st) (ptr st) = Ok cell /\
          ((cell = 0 /\ exists j, matched ops (loc st) j /\ loc st1 = j) \/
           (cell <> 0 /\ loc st1 = loc st))
    | JumpBackward =>
        exists cell, py_get (tape st) (ptr st) = Ok cell /\
          ((cell <> 0 /\ exists i, matched ops i (loc st) /\ loc st1 = i) \/
           (cell = 0 /\ loc st1 = loc st))
    | _ => loc st1 = loc st
    end.

(** The states the loop of [run] goes through on [ops] and [stdin]. *)
Inductive reaches (ops : list CollapsedToken) (stdin : str) : state -> Prop :=
| reaches_start : reaches ops stdin (initial stdin)
| reaches_step st st' :
    reaches ops stdin st ->
    loc st < len ops ->
    step ops st = Ok st' ->
    reaches ops stdin st'.

(** The closer at offset [k] of the text has no opener, and is the first
    such: the brackets before it are balanced. *)
Definition first_unmatched_closer (prog : str) (k : Z) : Prop :=
  0 <= k /\
  py_get prog k = Ok (BFToken_value JumpBackward) /\
  balanced (lex (firstn (Z.to_nat k) prog)) = true.

(** A code point: what [chr] accepts and [ord] returns. *)
Definition is_code_point (c : Z) : Prop := 0 <= c < 1114112.

(** * Properties *)

(** ** Python lists *)

Section PyListFacts.
Context {A : Type}.
Implicit Types (l : list A) (i : Z) (x : A).

Lemma py_get_nth l i x :
  0 <= i -> py_get l i = Ok x <-> nth_error l (Z.to_nat i) = Some x.
Proof.
  intros Hi. unfold py_get, py_index.
  destruct (Z.ltb_spec i 0); [lia|].
  destruct (Z.leb_spec 0 i); [|lia]. simpl.
  destruct (Z.ltb_spec i (len l)).
  - destruct (nth_error l (Z.to_nat i)) eqn:E.
    + split; congruence.
    + apply nth_error_None in E. lia.
  - split; [discriminate|]. intros E.
    assert (nth_error l (Z.to_nat i) <> None) as N by congruence.
    apply nth_error_Some in N. lia.
Qed.

Lemma py_get_bound l i x : 0 <= i -> py_get l i = Ok x -> i < len l.
Proof.
  intros Hi E. apply py_get_nth in E; [|exact Hi].
  assert (nth_error l (Z.to_nat i) <> None) as N by congruence.
  apply nth_error_Some in N. lia.
Qed.

Lemma py_get_defined l i : 0 <= i < len l -> exists x, py_get l i = Ok x.
Proof.
  intros Hi. destruct (nth_error l (Z.to_nat i)) eqn:E.
  - exists a. apply py_get_nth; [lia|exact E].
  - apply nth_error_None in E. lia.
Qed.

Lemma py_get_app_l l l' i :
  0 <= i < len l -> py_get (l ++ l') i = py_get l i.
Proof.
  intros Hi. destruct (py_get_defined l i Hi) as [x E]. rewrite E.
  apply py_get_nth; [lia|]. apply py_get_nth in E; [|lia].
  rewrite nth_error_app1; [exact E|lia].
Qed.

Lemma py_get_app_r l l' i :
  len l <= i -> py_get (l ++ l') i = py_get l' (i - len l).
Proof.
  intros Hi. unfold py_get, py_index.
  destruct (Z.ltb_spec i 0); [lia|].
  destruct (Z.ltb_spec (i - len l) 0); [lia|].
  rewrite length_app, Nat2Z.inj_add.
  destruct (Z.leb_spec 0 i); [|lia].
  destruct (Z.leb_spec 0 (i - len l)); [|lia]. simpl.
  destruct (Z.ltb_spec i (len l + len l')),
    (Z.ltb_spec (i - len l) (len l')); try lia; [|reflexivity].
  rewrite nth_error_app2 by lia.
  replace (Z.to_nat i - List.length l)%nat with (Z.to_nat (i - len l)) by lia.
  reflexivity.
Qed.

Lemma py_get_snoc l x : py_get (l ++ [x]) (len l) = Ok x.
Proof.
  rewrite py_get_app_r by lia. rewrite Z.sub_diag. reflexivity.
Qed.

Lemma set_nth_length l n x : List.length (set_nth l n x) = List.length l.
Proof.
  revert n. induction l as [|y r IH]; intros [|n]; simpl; auto.
Qed.

Lemma set_nth_same l n x :
  (n < List.length l)%nat -> nth_error (set_nth l n x) n = Some x.
Proof.
  revert n. induction l as [|y r IH]; intros [|n]; simpl; intros H;
    try lia; auto. apply IH. lia.
Qed.

Lemma set_nth_other l n m x :
  n <> m -> nth_error (set_nth l n x) m = nth_error l m.
Proof.
  revert n m. induction l as [|y r IH]; intros [|n] [|m]; simpl; intros H;
    auto; try congruence.
Qed.

Lemma set_nth_map {B : Type} (f : A -> B) l n x y :
  nth_error l n = Some y -> f x = f y ->
  map f (set_nth l n x) = map f l.
Proof.
  revert n. induction l as [|z r IH]; intros [|n]; simpl; intros H E;
    try discriminate.
  - inversion H; subst. now rewrite E.
  - f_equal. now apply IH.
Qed.

Lemma py_set_ok l i x :
  0 <= i < len l -> py_set l i x = Ok (set_nth l (Z.to_nat i) x).
Proof.
  intros Hi. unfold py_set, py_index.
  destruct (Z.ltb_spec i 0); [lia|].
  destruct (Z.leb_spec 0 i); [|lia].
  destruct (Z.ltb_spec i (len l)); [|lia]. reflexivity.
Qed.

Lemma py_get_set_same l i x :
  0 <= i < len l -> py_get (set_nth l (Z.to_nat i) x) i = Ok x.
Proof.
  intros Hi. apply py_get_nth; [lia|]. apply set_nth_same. lia.
Qed.

Lemma py_get_set_other l i j x :
  0 <= i -> 0 <= j -> i <> j ->
  py_get (set_nth l (Z.to_nat i) x) j = py_get l j.
Proof.
  intros Hi Hj Hne.
  destruct (py_get l j) as [y|e] eqn:E.
  - apply py_get_nth; [lia|]. apply py_get_nth in E; [|lia].
    rewrite set_nth_other by lia. exact E.
  - destruct (py_get (set_nth l (Z.to_nat i) x) j) as [y|e'] eqn:E'.
    + apply py_get_nth in E'; [|lia]. rewrite set_nth_other in E' by lia.
      apply py_get_nth in E'; [|lia]. congruence.
    + unfold py_get, py_index in *. rewrite set_nth_length in E'.
      destruct (j <? 0); destruct (_ && _);
        try destruct (nth_error _ _); try destruct (nth_error _ _);
        congruence.
Qed.

Lemma py_get_raise l i e : py_get l i = Raise e -> e = IndexError.
Proof.
  unfold py_get. destruct (_ && _); [destruct (nth_error _ _)|];
    congruence.
Qed.

Lemma py_set_raise l i x e : py_set l i x = Raise e -> e = IndexError.
Proof. unfold py_set. destruct (_ && _); congruence. Qed.

Lemma py_pop_raise l e : py_pop l = Raise e -> e = IndexError.
Proof. unfold py_pop. destruct (rev l); congruence. Qed.

Lemma py_pop_snoc l x : py_pop (l ++ [x]) = Ok (x, l).
Proof.
  unfold py_pop. rewrite rev_app_distr. simpl. now rewrite rev_involutive.
Qed.

Lemma is_empty_false l :
  is_empty l = false -> exists l' x, l = l' ++ [x].
Proof.
  destruct l as [|y r]; [discriminate|]. intros _.
  destruct (exists_last (l := y :: r)) as [l' [x E]]; [discriminate|].
  eauto.
Qed.

Lemma firstn_snoc l n x :
  nth_error l n = Some x -> firstn (S n) l = firstn n l ++ [x].
Proof.
  revert n. induction l as [|y r IH]; intros [|n] E; simpl in *;
    try discriminate.
  - now inversion E.
  - f_equal. now apply IH.
Qed.

Lemma slice_app_mid (a b c : list A) :
  slice (a ++ b ++ c) (len a) (len a + len b) = b.
Proof.
  unfold slice. rewrite Nat2Z.id.
  rewrite skipn_app, skipn_all, Nat.sub_diag. simpl.
  replace (Z.to_nat (len a + len b - len a)) with (List.length b) by lia.
  rewrite firstn_app, firstn_all, Nat.sub_diag. simpl. apply app_nil_r.
Qed.

Lemma slice_app_l (a b : list A) lo hi :
  0 <= lo <= hi -> hi <= len a -> slice (a ++ b) lo hi = slice a lo hi.
Proof.
  intros Hlo Hhi. unfold slice.
  rewrite skipn_app, firstn_app, length_skipn.
  replace (Z.to_nat (hi - lo) - (List.length a - Z.to_nat lo))%nat
    with O by lia.
  simpl. apply app_nil_r.
Qed.
End PyListFacts.

(** ** Tokens *)

Lemma BFToken_eqb_eq a b : BFToken_eqb a b = true <-> a = b.
Proof.
  unfold BFToken_eqb. destruct (BFToken_eq_dec a b); split; congruence.
Qed.

Lemma BFToken_get_value t : BFToken_get (BFToken_value t) = Some t.
Proof. destruct t; reflexivity. Qed.

Lemma BFToken_get_Some c t : BFToken_get c = Some t -> c = BFToken_value t.
Proof.
  unfold BFToken_get. intros E. apply find_some in E as [_ E].
  now apply Z.eqb_eq in E.
Qed.

(** ** Balanced bracket sequences *)

Lemma balanced_from_app d e ks ks' :
  balanced_from d ks = true ->
  balanced_from (d + e) (ks ++ ks') = balanced_from e ks'.
Proof.
  revert d. induction ks as [|k r IH]; intros d; simpl.
  - intros E. apply Nat.eqb_eq in E. now subst.
  - destruct k; try apply IH.
    destruct d as [|d]; [discriminate|]. intros E. apply (IH d E).
Qed.

Lemma balanced_app ks ks' :
  balanced ks = true -> balanced ks' = true -> balanced (ks ++ ks') = true.
Proof.
  unfold balanced. intros E E'.
  now rewrite <- (balanced_from_app 0 0 ks ks' E) in E'.
Qed.

Lemma balanced_wrap ks :
  balanced ks = true ->
  balanced (JumpForward :: ks ++ [JumpBackward]) = true.
Proof.
  unfold balanced. intros E. simpl.
  exact (balanced_from_app 0 1 ks [JumpBackward] E).
Qed.

Lemma balanced_single k : is_bracket k = false -> balanced [k] = true.
Proof. destruct k; simpl; intros E; try discriminate; reflexivity. Qed.

(** The shape of the token kinds while brackets are open: the stack lists,
    bottom first, the positions of the pending openers, and what lies
    between two of them, or after the last, is balanced. *)
Inductive chain : list BFToken -> list Z -> Prop :=
| chain_closed ks : balanced ks = true -> chain ks []
| chain_open pre seg sk :
    chain pre sk -> balanced seg = true ->
    chain (pre ++ JumpForward :: seg) (sk ++ [len pre]).

Lemma chain_app ks sk seg :
  chain ks sk -> balanced seg = true -> chain (ks ++ seg) sk.
Proof.
  intros [ks' B|pre seg' sk' C B] B'.
  - constructor. now apply balanced_app.
  - rewrite <- app_assoc. simpl. constructor; [exact C|].
    now apply balanced_app.
Qed.

Lemma chain_bound ks sk :
  chain ks sk -> Forall (fun s => 0 <= s < len ks) sk.
Proof.
  induction 1 as [ks B|pre seg sk C IH B].
  - constructor.
  - apply Forall_app. split.
    + eapply Forall_impl; [|exact IH]. simpl. intros s Hs.
      rewrite length_app. lia.
    + constructor; [|constructor]. rewrite length_app. simpl. lia.
Qed.

Lemma chain_inv_open ks sk s :
  chain ks (sk ++ [s]) ->
  exists pre seg,
    ks = pre ++ JumpForward :: seg /\ s = len pre /\
    chain pre sk /\ balanced seg = true.
Proof.
  intros C. inversion C as [ks' B E|pre seg sk' C' B E1 E2].
  - destruct sk; discriminate.
  - apply app_inj_tail in E2 as [-> <-]. exists pre, seg. auto.
Qed.

(** ** The loops of [parse] *)

Lemma run_continues_true prog symbol pos :
  run_continues prog symbol pos = Ok true -> 0 <= pos ->
  nth_error prog (Z.to_nat pos) = Some symbol.
Proof.
  unfold run_continues. intros E Hpos.
  destruct (pos <? len prog); [|discriminate].
  destruct (py_get prog pos) as [c|] eqn:Eget; [|discriminate].
  simpl in E. injection E as E. apply Z.eqb_eq in E. subst c.
  now apply py_get_nth in Eget.
Qed.

Lemma count_run_raise prog symbol pos count e :
  count_run prog symbol pos count = Raise e -> e = IndexError.
Proof.
  funelim (count_run prog symbol pos count); intros E.
  - now apply H.
  - discriminate.
  - injection E as <-. clear H Heqcall.
    match goal with Hr : run_continues _ _ _ = Raise _ |- _ =>
      unfold run_continues, bind in Hr; revert Hr end.
    destruct (_ <? _); [|discriminate].
    destruct (py_get prog _) eqn:Eg; [discriminate|].
    apply py_get_raise in Eg. congruence.
Qed.

Lemma count_run_spec prog symbol pos count pos' count' :
  count_run prog symbol pos count = Ok (pos', count') ->
  0 <= pos <= len prog ->
  pos <= pos' <= len prog /\
  count' = count + (pos' - pos) /\
  firstn (Z.to_nat pos') prog =
    firstn (Z.to_nat pos) prog ++ repeat symbol (Z.to_nat (pos' - pos)).
Proof.
  funelim (count_run prog symbol pos count); intros E Hpos.
  - match type of Hc with run_continues _ _ ?p = _ => rename p into pos end.
    pose proof (run_continues_lt _ _ _ Hc) as Hlt.
    apply H in E as (Hb & Hcount & Hpre); [|lia].
    split; [lia|]. split; [lia|]. rewrite Hpre.
    assert (Eget := run_continues_true _ _ _ Hc (proj1 Hpos)).
    replace (Z.to_nat (pos + 1)) with (S (Z.to_nat pos)) by lia.
    replace (Z.to_nat (pos' - pos)) with (S (Z.to_nat (pos' - (pos + 1))))
      by lia.
    rewrite (firstn_snoc _ _ _ Eget).
    rewrite <- app_assoc. reflexivity.
  - inversion E; subst.
    rewrite Z.sub_diag. simpl. rewrite app_nil_r. repeat split; lia.
  - discriminate.
Qed.

(** What one iteration of the outer loop does to the locals, by the symbol
    under the scan position. *)
Inductive scan_step (prog : str) (st : parser) : parser -> Prop :=
| scan_comment symbol :
    py_get prog (scan_loc st) = Ok symbol ->
    BFToken_get symbol = None ->
    scan_step prog st
      (mkParser (scan_loc st + 1) (tokens st) (bracket_stack st))
| scan_open symbol :
    py_get prog (scan_loc st) = Ok symbol ->
    BFToken_get symbol = Some JumpForward ->
    scan_step prog st
      (mkParser (scan_loc st + 1)
         (tokens st ++ [mkCollapsedToken JumpForward None])
         (bracket_stack st ++ [len (tokens st)]))
| scan_close symbol open_idx rest opened tokens' :
    py_get prog (scan_loc st) = Ok symbol ->
    BFToken_get symbol = Some JumpBackward ->
    bracket_stack st = rest ++ [open_idx] ->
    py_get (tokens st) open_idx = Ok opened ->
    token opened = JumpForward ->
    value opened = None ->
    py_set (tokens st) open_idx
      (mkCollapsedToken JumpForward (Some (len (tokens st)))) = Ok tokens' ->
    scan_step prog st
      (mkParser (scan_loc st + 1)
         (tokens' ++ [mkCollapsedToken JumpBackward (Some open_idx)]) rest)
| scan_run symbol op pos count :
    py_get prog (scan_loc st) = Ok symbol ->
    BFToken_get symbol = Some op ->
    is_bracket op = false ->
    count_run prog symbol (scan_loc st + 1) 1 = Ok (pos, count) ->
    scan_step prog st
      (mkParser pos (tokens st ++ [mkCollapsedToken op (Some count)])
         (bracket_stack st)).

Lemma parse_body_step prog st st' :
  parse_body prog st = Ok st' -> scan_step prog st st'.
Proof.
  unfold parse_body, bind.
  destruct (py_get prog (scan_loc st)) as [symbol|] eqn:Esym; [|discriminate].
  destruct (BFToken_get symbol) as [op|] eqn:Eop.
  2: { intros [= <-]. eapply scan_comment; eauto. }
  destruct op; simpl;
    try (destruct (count_run prog symbol (scan_loc st + 1) 1)
           as [[pos count]|] eqn:Ec; [|discriminate];
         intros [= <-]; eapply scan_run; eauto).
  - intros [= <-]. eapply scan_open; eauto.
  - destruct (is_empty (bracket_stack st)) eqn:Eempty; [discriminate|].
    apply is_empty_false in Eempty as (rest & open_idx & Estack).
    rewrite Estack, py_pop_snoc.
    destruct (py_get (tokens st) open_idx) as [opened|] eqn:Eopened;
      [|discriminate].
    destruct (BFToken_eqb (token opened) JumpForward) eqn:Etok;
      [|discriminate].
    destruct (value opened) eqn:Eval; [discriminate|]. simpl.
    apply BFToken_eqb_eq in Etok. unfold _replace. rewrite Etok.
    destruct (py_set (tokens st) open_idx _) as [tokens'|] eqn:Eset;
      [|discriminate].
    intros [= <-]. eapply scan_close; eauto.
Qed.

(** The rule of the outer loop: what holds of every state the loop goes
    through holds when it exits, and a failure is a failure of its body. *)
Lemma parse_loop_rule prog (P : parser -> Prop) (Q : result parser -> Prop) :
  (forall st st', P st -> scan_loc st < len prog ->
                  parse_body prog st = Ok st' -> P st') ->
  (forall st e, P st -> scan_loc st < len prog ->
                parse_body prog st = Raise e -> Q (Raise e)) ->
  (forall st, P st -> len prog <= scan_loc st -> Q (Ok st)) ->
  forall st, P st -> Q (parse_loop prog st).
Proof.
  intros Hstep Hfail Hexit st. funelim (parse_loop prog st); intros HP.
  - apply Hexit; [exact HP|]. now apply Z.ltb_ge.
  - pose proof (proj1 (Z.ltb_lt _ _) Hlt). eapply H; eauto.
  - pose proof (proj1 (Z.ltb_lt _ _) Hlt). eapply Hfail; eauto.
Qed.

Lemma parse_loop_exit prog st st' :
  scanning prog st -> parse_loop prog st = Ok st' ->
  scanning prog st' /\ len prog <= scan_loc st'.
Proof.
  intros Hs.
  apply (parse_loop_rule prog (scanning prog)
           (fun r => r = Ok st' -> scanning prog st' /\ len prog <= scan_loc st')).
  - intros. eapply scanning_next; eauto.
  - discriminate.
  - intros s Hsc Hlen [= <-]. auto.
  - exact Hs.
Qed.

Lemma parse_loop_raise prog st e :
  scanning prog st -> parse_loop prog st = Raise e ->
  exists st1, scanning prog st1 /\ scan_loc st1 < len prog /\
              parse_body prog st1 = Raise e.
Proof.
  intros Hs.
  apply (parse_loop_rule prog (scanning prog)
           (fun r => r = Raise e -> exists st1, scanning prog st1 /\
                       scan_loc st1 < len prog /\
                       parse_body prog st1 = Raise e)).
  - intros. eapply scanning_next; eauto.
  - intros s e' Hsc Hlt Hb [= <-]. eauto.
  - discriminate.
  - exact Hs.
Qed.

(** ** Bracket resolution *)

Lemma kinds_app ts ts' : kinds (ts ++ ts') = kinds ts ++ kinds ts'.
Proof. apply map_app. Qed.

Lemma kinds_length ts : List.length (kinds ts) = List.length ts.
Proof. apply length_map. Qed.

Lemma py_get_snoc_cases {A : Type} (l : list A) (x t : A) i :
  0 <= i -> py_get (l ++ [x]) i = Ok t ->
  (i < len l /\ py_get l i = Ok t) \/ (i = len l /\ t = x).
Proof.
  intros Hi E. pose proof (py_get_bound _ _ _ Hi E) as Hb.
  rewrite length_app in Hb. simpl in Hb.
  destruct (Z.eq_dec i (len l)) as [->|Hne].
  - right. rewrite py_get_snoc in E. split; congruence.
  - left. rewrite py_get_app_l in E by lia. split; [lia|exact E].
Qed.

Lemma matched_app ts ts' i j : matched ts i j -> matched (ts ++ ts') i j.
Proof.
  intros (Hij & Hi & Hj & Hb).
  assert (j < len ts) by (eapply py_get_bound; [lia|exact Hj]).
  split; [exact Hij|]. rewrite !py_get_app_l by lia.
  split; [exact Hi|]. split; [exact Hj|].
  rewrite kinds_app, slice_app_l; [exact Hb|lia|].
  rewrite kinds_length. lia.
Qed.

Lemma matched_set ts i j s x y :
  matched ts i j -> 0 <= s -> py_get ts s = Ok y -> token x = token y ->
  s <> i -> s <> j ->
  matched (set_nth ts (Z.to_nat s) x) i j.
Proof.
  intros (Hij & Hi & Hj & Hb) Hs Ey Etok Hsi Hsj.
  split; [exact Hij|]. rewrite !py_get_set_other by lia.
  split; [exact Hi|]. split; [exact Hj|].
  unfold kinds. rewrite (set_nth_map token ts (Z.to_nat s) x y); auto.
  now apply py_get_nth in Ey.
Qed.

Lemma unclosed_app ts ts' i : unclosed ts i -> unclosed (ts ++ ts') i.
Proof.
  intros [Hi E]. split; [exact Hi|].
  rewrite py_get_app_l; [exact E|].
  split; [exact Hi|]. eapply py_get_bound; eauto.
Qed.

(** The invariant of the outer loop on the tokens built so far and the
    bracket stack. *)
Record bracket_inv (ts : list CollapsedToken) (sk : list Z) : Prop := {
  inv_chain : chain (kinds ts) sk;
  inv_stack : Forall (unclosed ts) sk;
  inv_forward : forall i t,
    0 <= i -> py_get ts i = Ok t -> token t = JumpForward ->
    In i sk \/ exists j, matched ts i j;
  inv_backward : forall i t,
    0 <= i -> py_get ts i = Ok t -> token t = JumpBackward ->
    exists j, matched ts j i
}.

Lemma bracket_inv_start : bracket_inv [] [].
Proof.
  split.
  - now constructor.
  - constructor.
  - intros i t Hi E. apply py_get_bound in E; simpl in *; lia.
  - intros i t Hi E. apply py_get_bound in E; simpl in *; lia.
Qed.

Lemma bracket_inv_run ts sk x :
  bracket_inv ts sk -> is_bracket (token x) = false ->
  bracket_inv (ts ++ [x]) sk.
Proof.
  intros [Hc Hs Hf Hb] Hx. split.
  - rewrite kinds_app. apply chain_app; [exact Hc|].
    now apply balanced_single.
  - eapply Forall_impl; [|exact Hs]. intros s. apply unclosed_app.
  - intros i t Hi E Et.
    destruct (py_get_snoc_cases _ _ _ _ Hi E) as [[Hlt E']|[_ ->]]; clear E.
    + destruct (Hf i t Hi E' Et) as [Hin|[j Hm]]; [now left|right].
      exists j. now apply matched_app.
    + rewrite Et in Hx. discriminate.
  - intros i t Hi E Et.
    destruct (py_get_snoc_cases _ _ _ _ Hi E) as [[Hlt E']|[_ ->]]; clear E.
    + destruct (Hb i t Hi E' Et) as [j Hm].
      exists j. now apply matched_app.
    + rewrite Et in Hx. discriminate.
Qed.

Lemma bracket_inv_open ts sk :
  bracket_inv ts sk ->
  bracket_inv (ts ++ [mkCollapsedToken JumpForward None]) (sk ++ [len ts]).
Proof.
  intros [Hc Hs Hf Hb]. split.
  - rewrite kinds_app. simpl. rewrite <- (kinds_length ts).
    now constructor.
  - apply Forall_app. split.
    + eapply Forall_impl; [|exact Hs]. intros s. apply unclosed_app.
    + constructor; [|constructor]. split; [lia|]. apply py_get_snoc.
  - intros i t Hi E Et.
    destruct (py_get_snoc_cases _ _ _ _ Hi E) as [[Hlt E']|[-> ->]]; clear E.
    + destruct (Hf i t Hi E' Et) as [Hin|[j Hm]].
      * left. apply in_or_app. now left.
      * right. exists j. now apply matched_app.
    + left. apply in_or_app. right. now left.
  - intros i t Hi E Et.
    destruct (py_get_snoc_cases _ _ _ _ Hi E) as [[Hlt E']|[_ ->]]; clear E.
    + destruct (Hb i t Hi E' Et) as [j Hm].
      exists j. now apply matched_app.
    + discriminate.
Qed.

Lemma bracket_inv_close ts sk s opened ts' :
  bracket_inv ts (sk ++ [s]) ->
  py_get ts s = Ok opened -> token opened = JumpForward ->
  py_set ts s (mkCollapsedToken JumpForward (Some (len ts))) = Ok ts' ->
  bracket_inv (ts' ++ [mkCollapsedToken JumpBackward (Some s)]) sk.
Proof.
  intros [Hc Hs Hf Hb] Eo Eto Eset.
  destruct (chain_inv_open _ _ _ Hc) as (pre & seg & Ek & Es & Hpre & Hseg).
  assert (Hlen : len ts = len pre + 1 + len seg).
  { rewrite <- (kinds_length ts), Ek, length_app. simpl. lia. }
  assert (Hs0 : 0 <= s < len ts) by lia.
  rewrite py_set_ok in Eset by exact Hs0. injection Eset as <-.
  set (x := mkCollapsedToken JumpForward (Some (len ts))) in *.
  set (ts' := set_nth ts (Z.to_nat s) x).
  assert (Hlen' : len ts' = len ts) by (unfold ts'; now rewrite set_nth_length).
  assert (Ek' : kinds ts' = kinds ts).
  { unfold kinds, ts'. apply set_nth_map with (y := opened).
    - apply py_get_nth in Eo; [exact Eo|lia].
    - now rewrite Eto. }
  assert (Hnew : matched (ts' ++ [mkCollapsedToken JumpBackward (Some s)])
                   s (len ts)).
  { split; [lia|]. split; [|split].
    - rewrite py_get_app_l by lia. unfold ts'. now apply py_get_set_same.
    - rewrite <- Hlen'. apply py_get_snoc.
    - rewrite kinds_app, Ek', Ek. simpl.
      replace (pre ++ JumpForward :: seg) with ((pre ++ [JumpForward]) ++ seg)
        by (now rewrite <- app_assoc).
      rewrite <- app_assoc.
      replace (s + 1) with (len (pre ++ [JumpForward]))
        by (rewrite length_app; simpl; lia).
      replace (len ts) with (len (pre ++ [JumpForward]) + len seg)
        by (rewrite length_app; simpl; lia).
      now rewrite slice_app_mid. }
  assert (Hkeep : forall i j, matched ts i j ->
            matched (ts' ++ [mkCollapsedToken JumpBackward (Some s)]) i j).
  { intros i j Hm. apply matched_app.
    destruct Hm as (Hij & Hi & Hj & Hbal).
    apply matched_set with (y := opened); try lia; auto.
    - split; auto.
    - intros ->. rewrite Eo in Hi. injection Hi as Hi.
      apply Forall_app in Hs as [_ Hs]. inversion Hs as [|? ? [_ Hu] _]; subst.
      rewrite Eo in Hu. congruence.
    - intros ->. rewrite Eo in Hj. injection Hj as Hj. rewrite Hj in Eto.
      discriminate. }
  split.
  - rewrite kinds_app, Ek', Ek, <- app_assoc. simpl.
    apply chain_app; [exact Hpre|].
    apply (balanced_wrap seg Hseg).
  - apply Forall_app in Hs as [Hs _].
    pose proof (chain_bound _ _ Hpre) as Hbound.
    rewrite Forall_forall in *. intros r Hr.
    destruct (Hs r Hr) as [Hr0 Er]. specialize (Hbound r Hr). simpl in Hbound.
    apply unclosed_app. split; [exact Hr0|].
    unfold ts'. rewrite py_get_set_other by lia. exact Er.
  - intros i t Hi E Et.
    destruct (py_get_snoc_cases _ _ _ _ Hi E) as [[Hlt E']|[_ ->]]; clear E;
      [|discriminate].
    destruct (Z.eq_dec i s) as [->|Hne]; [right; eauto|].
    unfold ts' in E'. rewrite py_get_set_other in E' by lia.
    destruct (Hf i t Hi E' Et) as [Hin|[j Hm]].
    + left. apply in_app_or in Hin as [Hin|[Hin|[]]]; [exact Hin|congruence].
    + right. eauto.
  - intros i t Hi E Et.
    destruct (py_get_snoc_cases _ _ _ _ Hi E) as [[Hlt E']|[-> _]]; clear E.
    + destruct (Z.eq_dec i s) as [->|Hne].
      * unfold ts' in E'. rewrite py_get_set_same in E' by lia.
        injection E' as <-. discriminate.
      * unfold ts' in E'. rewrite py_get_set_other in E' by lia.
        destruct (Hb i t Hi E' Et) as [j Hm]. eauto.
    + rewrite Hlen'. eauto.
Qed.

Lemma scanning_bracket_inv prog st :
  scanning prog st -> bracket_inv (tokens st) (bracket_stack st).
Proof.
  induction 1 as [|st st' Hsc IH Hlt Hbody].
  - apply bracket_inv_start.
  - apply parse_body_step in Hbody.
    destruct Hbody as [symbol Es Eg|symbol Es Eg
                      |symbol open_idx rest opened tokens' Es Eg Ek Eo Et Ev Eset
                      |symbol op pos count Es Eg Hop Ec]; simpl.
    + exact IH.
    + now apply bracket_inv_open.
    + rewrite Ek in IH. eapply bracket_inv_close; eauto.
    + now apply bracket_inv_run.
Qed.

(** The nesting level after [ks], entered at level [d]; [None] when a
    closer has no opener. *)
Fixpoint level (d : nat) (ks : list BFToken) : option nat :=
  match ks with
  | [] => Some d
  | JumpForward :: r => level (S d) r
  | JumpBackward :: r =>
      match d with
      | O => None
      | S d' => level d' r
      end
  | _ :: r => level d r
  end.

Lemma balanced_from_level d ks :
  balanced_from d ks = true <-> level d ks = Some O.
Proof.
  revert d. induction ks as [|k r IH]; intros d; simpl.
  - rewrite Nat.eqb_eq. split; congruence.
  - destruct k; try apply IH. destruct d; [|apply IH].
    split; discriminate.
Qed.

Lemma level_app d a b :
  level d (a ++ b) =
  match level d a with
  | Some d' => level d' b
  | None => None
  end.
Proof.
  revert d. induction a as [|k r IH]; intros d; simpl; [reflexivity|].
  destruct k; try apply IH. destruct d; [reflexivity|apply IH].
Qed.

Lemma level_shift d d' e ks :
  level d ks = Some d' -> level (d + e) ks = Some (d' + e)%nat.
Proof.
  revert d. induction ks as [|k r IH]; intros d; simpl.
  - congruence.
  - destruct k; try apply IH.
    destruct d; [discriminate|]. apply IH.
Qed.

Section SliceFacts.
Context {A : Type}.

Lemma firstn_plus (a b : nat) (l : list A) :
  firstn (a + b) l = firstn a l ++ firstn b (skipn a l).
Proof.
  revert l. induction a as [|a IH]; intros [|x l]; simpl; auto.
  - now rewrite firstn_nil.
  - now rewrite IH.
Qed.

Lemma slice_split (l : list A) lo mid hi :
  0 <= lo <= mid -> mid <= hi ->
  slice l lo hi = slice l lo mid ++ slice l mid hi.
Proof.
  intros H1 H2. unfold slice.
  replace (Z.to_nat (hi - lo))
    with (Z.to_nat (mid - lo) + Z.to_nat (hi - mid))%nat by lia.
  rewrite firstn_plus, skipn_skipn.
  replace (Z.to_nat (mid - lo) + Z.to_nat lo)%nat with (Z.to_nat mid) by lia.
  reflexivity.
Qed.

Lemma slice_one (l : list A) i x :
  0 <= i -> nth_error l (Z.to_nat i) = Some x -> slice l i (i + 1) = [x].
Proof.
  intros Hi E. unfold slice.
  replace (Z.to_nat (i + 1 - i)) with 1%nat by lia.
  rewrite <- (firstn_skipn_middle _ _ E) at 1.
  rewrite skipn_app, skipn_all2 by (rewrite length_firstn; lia).
  rewrite length_firstn.
  assert (Z.to_nat i < List.length l)%nat
    by (apply nth_error_Some; congruence).
  replace (Z.to_nat i - Nat.min (Z.to_nat i) (List.length l))%nat
    with O by lia.
  reflexivity.
Qed.
End SliceFacts.

Lemma kinds_nth ts i t :
  0 <= i -> py_get ts i = Ok t ->
  nth_error (kinds ts) (Z.to_nat i) = Some (token t).
Proof.
  intros Hi E. apply py_get_nth in E; [|exact Hi].
  unfold kinds. now rewrite nth_error_map, E.
Qed.

(** Matched pairs never cross: a pair opened inside another closes inside
    it too. *)
Lemma matched_nested ts i j i' j' :
  matched ts i j -> matched ts i' j' -> i < i' < j -> j' < j.
Proof.
  intros (Hij & Hi & Hj & Hb) (Hij' & Hi' & Hj' & Hb') Hin.
  destruct (Z.lt_trichotomy j' j) as [Hlt|[->|Hgt]]; [exact Hlt| |].
  - rewrite Hj in Hj'. injection Hj' as Hj'. lia.
  - exfalso. unfold balanced in *.
    apply balanced_from_level in Hb, Hb'.
    rewrite (slice_split _ (i + 1) i' j) in Hb by lia.
    rewrite (slice_split _ i' (i' + 1) j) in Hb by lia.
    rewrite (slice_one _ _ _ (proj1 Hij') (kinds_nth _ _ _ (proj1 Hij') Hi'))
      in Hb.
    rewrite (slice_split _ (i' + 1) j j') in Hb' by lia.
    rewrite (slice_split _ j (j + 1) j') in Hb' by lia.
    assert (Hj0 : 0 <= j) by lia.
    rewrite (slice_one _ _ _ Hj0 (kinds_nth _ _ _ Hj0 Hj)) in Hb'.
    simpl in Hb, Hb'. rewrite level_app in Hb, Hb'. simpl in Hb.
    destruct (level 0 (slice (kinds ts) (i + 1) i')) as [a|]; [|discriminate].
    destruct (level 0 (slice (kinds ts) (i' + 1) j)) as [b|] eqn:Eb;
      [|discriminate].
    apply (level_shift _ _ (S a)) in Eb. simpl in Eb.
    rewrite Eb in Hb. destruct b; simpl in *; [discriminate|].
    injection Hb as Hb. lia.
Qed.

Lemma chain_empty ks : chain ks [] -> balanced ks = true.
Proof.
  intros C. inversion C as [ks' B|pre seg sk C' B E1 E2]; [exact B|].
  destruct sk; discriminate.
Qed.

Lemma parse_Ok prog ops :
  parse prog = Ok ops ->
  exists st, scanning prog st /\ len prog <= scan_loc st /\
             tokens st = ops /\ bracket_stack st = [].
Proof.
  unfold parse, bind.
  destruct (parse_loop prog (mkParser 0 [] [])) as [st|] eqn:E; [|discriminate].
  apply parse_loop_exit in E as [Hs Hl]; [|constructor].
  destruct (bracket_stack st) eqn:Esk; simpl.
  - intros [= <-]. eauto.
  - destruct (py_pop (z :: l)) as [[]|]; discriminate.
Qed.

Lemma parse_bracket_inv prog ops : parse prog = Ok ops -> bracket_inv ops [].
Proof.
  intros Hp. apply parse_Ok in Hp as (st & Hs & _ & <- & Esk).
  apply scanning_bracket_inv in Hs. now rewrite Esk in Hs.
Qed.

Lemma parse_forward prog ops i t :
  parse prog = Ok ops ->
  0 <= i -> py_get ops i = Ok t -> token t = JumpForward ->
  exists j, value t = Some j /\ matched ops i j.
Proof.
  intros Hp Hi E Et. apply parse_bracket_inv in Hp as [_ _ Hf _].
  destruct (Hf i t Hi E Et) as [[]|[j Hm]].
  exists j. split; [|exact Hm].
  destruct Hm as (_ & Ei & _). rewrite E in Ei. now injection Ei as ->.
Qed.

Lemma parse_backward prog ops j t :
  parse prog = Ok ops ->
  0 <= j -> py_get ops j = Ok t -> token t = JumpBackward ->
  exists i, value t = Some i /\ matched ops i j.
Proof.
  intros Hp Hj E Et. apply parse_bracket_inv in Hp as [_ _ _ Hb].
  destruct (Hb j t Hj E Et) as [i Hm].
  exists i. split; [|exact Hm].
  destruct Hm as (_ & _ & Ej & _). rewrite E in Ej. now injection Ej as ->.
Qed.

(** C3.  Whenever [parse] succeeds, the jump instructions of its result form
    a balanced parenthesization; every jump-if-zero holds the index of a
    later jump-if-nonzero that holds its index back, with a balanced segment
    in between (so they are matching parentheses, and no target is left
    [None]); the same holds of every jump-if-nonzero; and matched pairs do
    not cross. *)
Theorem parse_brackets_matched prog ops :
  parse prog = Ok ops ->
  balanced (kinds ops) = true /\
  (forall i t, 0 <= i -> py_get ops i = Ok t -> token t = JumpForward ->
     exists j, value t = Some j /\ matched ops i j) /\
  (forall j t, 0 <= j -> py_get ops j = Ok t -> token t = JumpBackward ->
     exists i, value t = Some i /\ matched ops i j) /\
  (forall i j i' j', matched ops i j -> matched ops i' j' ->
     i < i' < j -> j' < j).
Proof.
  intros Hp. split; [|split; [|split]].
  - apply parse_bracket_inv in Hp as [Hc _ _ _]. now apply chain_empty.
  - intros i t. now apply (parse_forward prog).
  - intros j t. now apply (parse_backward prog).
  - intros i j i' j'. apply matched_nested.
Qed.

Lemma parse_brackets_matched_witness :
  exists ops, parse (lit "[+[-]]") = Ok ops /\ balanced (kinds ops) = true.
Proof.
  eexists. split; [vm_compute; reflexivity|].
  apply (parse_brackets_matched (lit "[+[-]]")). vm_compute. reflexivity.
Defined.

(** ** The bracket stack *)

Lemma scanning_pop prog st open_idx rest :
  scanning prog st ->
  py_pop (bracket_stack st) = Ok (open_idx, rest) ->
  unclosed (tokens st) open_idx.
Proof.
  intros Hs Ep. apply scanning_bracket_inv in Hs as [_ Hst _ _].
  destruct (bracket_stack st) as [|z l] eqn:Esk; [discriminate|].
  destruct (is_empty_false (z :: l) eq_refl) as (l' & x & E).
  rewrite E, py_pop_snoc in Ep. injection Ep as -> ->.
  rewrite E in Hst. apply Forall_app in Hst as [_ Hst].
  now inversion Hst.
Qed.

Lemma parse_body_expected prog st opened :
  parse_body prog st
    = Raise (MismatchedBrackets (ExpectedEmptyJumpForward opened)) ->
  exists open_idx rest,
    py_pop (bracket_stack st) = Ok (open_idx, rest) /\
    py_get (tokens st) open_idx = Ok opened /\
    (token opened <> JumpForward \/ value opened <> None).
Proof.
  unfold parse_body, bind.
  destruct (py_get prog (scan_loc st)) as [symbol|] eqn:Es.
  2: { apply py_get_raise in Es. congruence. }
  destruct (BFToken_get symbol) as [op|]; [|discriminate].
  destruct op; simpl; try discriminate;
    try (destruct (count_run prog symbol (scan_loc st + 1) 1) as [[? ?]|]
           eqn:Ec; [discriminate|apply count_run_raise in Ec; congruence]).
  destruct (is_empty (bracket_stack st)); [discriminate|].
  destruct (py_pop (bracket_stack st)) as [[open_idx rest]|] eqn:Ep.
  2: { apply py_pop_raise in Ep. congruence. }
  destruct (py_get (tokens st) open_idx) as [found|] eqn:Ef.
  2: { apply py_get_raise in Ef. congruence. }
  destruct (BFToken_eqb (token found) JumpForward) eqn:Et; simpl.
  + destruct (value found) eqn:Ev; simpl.
    * intros [= <-]. exists open_idx, rest.
      split; [reflexivity|]. split; [exact Ef|]. right. congruence.
    * destruct (py_set _ _ _) eqn:Eset; [discriminate|].
      apply py_set_raise in Eset. congruence.
  + intros [= <-]. exists open_idx, rest.
    split; [reflexivity|]. split; [exact Ef|].
    left. intros E. apply BFToken_eqb_eq in E. congruence.
Qed.

(** C9.  In every state the outer loop of [parse] goes through, the index
    that [bracket_stack.pop()] returns is that of a jump-if-zero whose
    target is still [None]; so neither an iteration of the loop nor [parse]
    ever raises the error of line 62. *)
Theorem parse_pop_finds_unresolved_opener prog st :
  scanning prog st ->
  (forall open_idx rest,
     py_pop (bracket_stack st) = Ok (open_idx, rest) ->
     py_get (tokens st) open_idx = Ok (mkCollapsedToken JumpForward None)) /\
  (forall opened,
     parse_body prog st
       <> Raise (MismatchedBrackets (ExpectedEmptyJumpForward opened))) /\
  (forall opened,
     parse prog
       <> Raise (MismatchedBrackets (ExpectedEmptyJumpForward opened))).
Proof.
  intros Hs.
  assert (Hbody : forall s opened, scanning prog s ->
            parse_body prog s
              <> Raise (MismatchedBrackets (ExpectedEmptyJumpForward opened))).
  { intros s opened Hsc E.
    apply parse_body_expected in E as (open_idx & rest & Ep & Eo & Hbad).
    destruct (scanning_pop _ _ _ _ Hsc Ep) as [_ Eu].
    rewrite Eu in Eo. injection Eo as <-. simpl in Hbad.
    destruct Hbad; congruence. }
  split; [|split].
  - intros open_idx rest Ep. now destruct (scanning_pop _ _ _ _ Hs Ep).
  - intros opened. now apply Hbody.
  - intros opened. unfold parse, bind.
    destruct (parse_loop prog (mkParser 0 [] [])) as [st'|e] eqn:E.
    + destruct (negb (is_empty (bracket_stack st'))); [|discriminate].
      destruct (py_pop (bracket_stack st')) as [[? ?]|] eqn:Ep;
        [discriminate|].
      apply py_pop_raise in Ep. congruence.
    + intros [= ->].
      apply parse_loop_raise in E as (s & Hsc & _ & Eb); [|constructor].
      now apply Hbody in Eb.
Qed.

Lemma parse_pop_finds_unresolved_opener_witness :
  py_get [mkCollapsedToken JumpForward None] 0
    = Ok (mkCollapsedToken JumpForward None).
Proof.
  assert (Hs : scanning (lit "[]")
                 (mkParser 1 [mkCollapsedToken JumpForward None] [0])).
  { apply (scanning_next (lit "[]") (mkParser 0 [] [])).
    - constructor.
    - simpl. lia.
    - reflexivity. }
  apply (proj1 (parse_pop_finds_unresolved_opener _ _ Hs) 0 []).
  reflexivity.
Defined.

(** C6, as the spec states it, fails: on the text of two openers the scan
    ends with both on the stack, the outermost unclosed opener is the
    instruction at index 0, and the error raised carries 1. *)
Lemma parse_unclosed_reports_outermost_counterexample :
  exists st,
    parse_loop (lit "[[") (mkParser 0 [] []) = Ok st /\
    bracket_stack st <> [] /\
    outermost_unclosed (tokens st) 0 /\
    parse (lit "[[") = Raise (MismatchedBrackets (Position 1)) /\
    ~ (exists i, parse (lit "[[") = Raise (MismatchedBrackets (Position i)) /\
                 outermost_unclosed (tokens st) i).
Proof.
  exists (mkParser 2 [mkCollapsedToken JumpForward None;
                      mkCollapsedToken JumpForward None] [0; 1]).
  assert (Ho : outermost_unclosed
                 [mkCollapsedToken JumpForward None;
                  mkCollapsedToken JumpForward None] 0).
  { split; [split; [lia|reflexivity]|]. intros k [Hk _]. exact Hk. }
  split; [reflexivity|]. split; [discriminate|]. split; [exact Ho|].
  split; [reflexivity|].
  intros (i & Ei & _ & Hmin).
  assert (i = 1) as -> by (vm_compute in Ei; congruence).
  specialize (Hmin 0 (proj1 Ho)). lia.
Qed.

(** C6, amended.  When the scan ends with a non-empty bracket stack, [parse]
    raises [MismatchedBrackets] with the index, in the collapsed sequence,
    of the innermost (most recently opened) unclosed jump-if-zero. *)
Theorem parse_unclosed_reports_innermost prog st :
  parse_loop prog (mkParser 0 [] []) = Ok st ->
  bracket_stack st <> [] ->
  exists i, parse prog = Raise (MismatchedBrackets (Position i)) /\
            innermost_unclosed (tokens st) i.
Proof.
  intros E Hne. unfold parse, bind. rewrite E.
  apply parse_loop_exit in E as [Hs _]; [|constructor].
  apply scanning_bracket_inv in Hs as [Hc Hst Hf _].
  destruct (bracket_stack st) as [|z l] eqn:Esk; [congruence|].
  destruct (is_empty_false (z :: l) eq_refl) as (rest & s & Es).
  simpl negb. cbv iota. rewrite Es in *. rewrite py_pop_snoc.
  exists s. split; [reflexivity|].
  apply Forall_app in Hst as [_ Hst]. inversion Hst as [|? ? Hu _]; subst.
  split; [exact Hu|]. intros k [Hk Ek].
  destruct (Hf k _ Hk Ek eq_refl) as [Hin|[j (_ & Ej & _)]].
  - apply in_app_or in Hin as [Hin|[<-|[]]]; [|lia].
    destruct (chain_inv_open _ _ _ Hc) as (pre & seg & _ & -> & Hpre & _).
    apply chain_bound in Hpre. rewrite Forall_forall in Hpre.
    specialize (Hpre k Hin). simpl in Hpre. lia.
  - rewrite Ek in Ej. discriminate.
Qed.

Lemma parse_unclosed_reports_innermost_witness :
  exists i, parse (lit "[[") = Raise (MismatchedBrackets (Position i)) /\
            innermost_unclosed [mkCollapsedToken JumpForward None;
                                mkCollapsedToken JumpForward None] i.
Proof.
  apply (parse_unclosed_reports_innermost (lit "[[")
           (mkParser 2 [mkCollapsedToken JumpForward None;
                        mkCollapsedToken JumpForward None] [0; 1])).
  - reflexivity.
  - discriminate.
Defined.

(** C7.  [parse] raises [MismatchedBrackets] on each of the texts of one
    closer, of one opener and of two openers and one closer; on an opener
    followed by a closer it returns two instructions that point at each
    other. *)
Theorem parse_bracket_cases :
  parse (lit "]") = Raise (MismatchedBrackets (Position 1)) /\
  parse (lit "[") = Raise (MismatchedBrackets (Position 0)) /\
  parse (lit "[[]") = Raise (MismatchedBrackets (Position 0)) /\
  parse (lit "[]") = Ok [mkCollapsedToken JumpForward (Some 1);
                         mkCollapsedToken JumpBackward (Some 0)].
Proof. repeat split; reflexivity. Qed.

(** ** Run-length collapsing *)

Lemma set_nth_flat_map {A B : Type} (f : A -> list B) l n x y :
  nth_error l n = Some y -> f x = f y ->
  flat_map f (set_nth l n x) = flat_map f l.
Proof.
  revert n. induction l as [|z r IH]; intros [|n]; simpl; intros H E;
    try discriminate.
  - inversion H; subst. now rewrite E.
  - f_equal. now apply IH.
Qed.

Lemma set_nth_Forall {A : Type} (P : A -> Prop) l n x :
  Forall P l -> P x -> Forall P (set_nth l n x).
Proof.
  intros Hl Hx. revert n. induction Hl as [|z r Hz Hr IH]; intros [|n]; simpl;
    constructor; auto.
Qed.

Lemma filter_repeat {A : Type} (f : A -> bool) x n :
  f x = true -> filter f (repeat x n) = repeat x n.
Proof.
  intros E. induction n as [|n IH]; simpl; [reflexivity|].
  now rewrite E, IH.
Qed.

Lemma lex_app a b : lex (a ++ b) = lex a ++ lex b.
Proof. apply flat_map_app. Qed.

Lemma lex_repeat c op n :
  BFToken_get c = Some op -> lex (repeat c n) = repeat op n.
Proof.
  intros E. induction n as [|n IH]; simpl; [reflexivity|].
  unfold lex in *. simpl. now rewrite E, IH.
Qed.

Lemma filter_bracket_repeat op n :
  is_bracket op = false -> filter is_bracket (repeat op n) = [].
Proof.
  intros E. induction n as [|n IH]; simpl; [reflexivity|]. now rewrite E.
Qed.

(** The invariant of the outer loop that relates the tokens built so far to
    the text already scanned. *)
Record collapse_inv (prog : str) (st : parser) : Prop := {
  inv_loc : 0 <= scan_loc st <= len prog;
  inv_decollapse :
    decollapse (tokens st)
      = filter is_symbol (firstn (Z.to_nat (scan_loc st)) prog);
  inv_lengths : Forall run_length_ok (tokens st);
  inv_brackets :
    filter is_bracket (kinds (tokens st))
      = filter is_bracket (lex (firstn (Z.to_nat (scan_loc st)) prog))
}.

Lemma firstn_next (prog : str) pos symbol :
  0 <= pos -> py_get prog pos = Ok symbol ->
  firstn (Z.to_nat (pos + 1)) prog = firstn (Z.to_nat pos) prog ++ [symbol].
Proof.
  intros Hp E. apply py_get_nth in E; [|exact Hp].
  replace (Z.to_nat (pos + 1)) with (S (Z.to_nat pos)) by lia.
  now apply firstn_snoc.
Qed.

Lemma is_symbol_get c op : BFToken_get c = Some op -> is_symbol c = true.
Proof. unfold is_symbol. now intros ->. Qed.

Lemma scanning_collapse_inv prog st : scanning prog st -> collapse_inv prog st.
Proof.
  induction 1 as [|st st' Hsc [Hloc Hdec Hlen Hbr] Hlt Hbody].
  - split; simpl; try reflexivity; [lia|constructor].
  - apply parse_body_step in Hbody.
    destruct Hbody as [symbol Es Eg|symbol Es Eg
                      |symbol open_idx rest opened tokens' Es Eg Ek Eo Et Ev Eset
                      |symbol op pos count Es Eg Hop Ec]; simpl.
    + split; simpl; [lia| | exact Hlen|];
        rewrite (firstn_next _ _ _ (proj1 Hloc) Es).
      * rewrite filter_app. simpl. unfold is_symbol at 2. rewrite Eg.
        now rewrite app_nil_r.
      * rewrite lex_app. unfold lex at 2. simpl. rewrite Eg.
        now rewrite app_nil_r.
    + split; simpl; [lia| | |];
        try rewrite (firstn_next _ _ _ (proj1 Hloc) Es).
      * unfold decollapse. rewrite flat_map_app, filter_app. simpl.
        rewrite (is_symbol_get _ _ Eg). fold (decollapse (tokens st)).
        rewrite Hdec. unfold expand. simpl.
        now rewrite (BFToken_get_Some _ _ Eg).
      * apply Forall_app. split; [exact Hlen|].
        constructor; [|constructor]. intros Hb. discriminate.
      * rewrite kinds_app, lex_app, !filter_app, Hbr. unfold lex at 2. simpl.
        now rewrite Eg.
    + assert (Hidx : 0 <= open_idx < len (tokens st)).
      { apply scanning_bracket_inv in Hsc as [Hc _ _ _]. rewrite Ek in Hc.
        apply chain_bound in Hc. apply Forall_app in Hc as [_ Hc].
        inversion Hc as [|? ? Hb _]; subst. simpl in Hb.
        now rewrite kinds_length in Hb. }
      rewrite py_set_ok in Eset by exact Hidx. injection Eset as <-.
      assert (Enth : nth_error (tokens st) (Z.to_nat open_idx) = Some opened)
        by (apply py_get_nth; [lia|exact Eo]).
      split; simpl; [lia| | |];
        try rewrite (firstn_next _ _ _ (proj1 Hloc) Es).
      * unfold decollapse. rewrite flat_map_app, filter_app. simpl.
        rewrite (is_symbol_get _ _ Eg).
        rewrite (set_nth_flat_map expand _ _ _ opened Enth).
        -- fold (decollapse (tokens st)). rewrite Hdec. unfold expand. simpl.
           now rewrite (BFToken_get_Some _ _ Eg).
        -- unfold expand. now rewrite Et.
      * apply Forall_app. split.
        -- apply set_nth_Forall; [exact Hlen|]. intros Hb. discriminate.
        -- constructor; [|constructor]. intros Hb. discriminate.
      * rewrite kinds_app, lex_app, !filter_app. unfold kinds at 1.
        rewrite (set_nth_map token _ _ _ opened Enth) by (now rewrite Et).
        fold (kinds (tokens st)). rewrite Hbr. unfold lex at 2. simpl.
        now rewrite Eg.
    + pose proof (py_get_bound _ _ _ (proj1 Hloc) Es) as Hin.
      destruct (count_run_spec _ _ _ _ _ _ Ec) as (Hpos & Hcount & Hpre);
        [lia|].
      rewrite (firstn_next _ _ _ (proj1 Hloc) Es) in Hpre.
      assert (Erep : firstn (Z.to_nat pos) prog
                     = firstn (Z.to_nat (scan_loc st)) prog
                         ++ repeat symbol (Z.to_nat count)).
      { rewrite Hpre, <- app_assoc. f_equal.
        replace (Z.to_nat count)
          with (S (Z.to_nat (pos - (scan_loc st + 1)))) by lia.
        reflexivity. }
      split; simpl; [lia| | |]; try rewrite Erep.
      * unfold decollapse. rewrite flat_map_app, filter_app. simpl.
        fold (decollapse (tokens st)). rewrite Hdec.
        unfold expand. cbn [token value]. rewrite Hop, app_nil_r.
        rewrite (filter_repeat _ _ _ (is_symbol_get _ _ Eg)).
        now rewrite (BFToken_get_Some _ _ Eg).
      * apply Forall_app. split; [exact Hlen|].
        constructor; [|constructor]. intros _. exists count.
        split; [reflexivity|lia].
      * rewrite kinds_app, lex_app, !filter_app, Hbr. simpl.
        rewrite (lex_repeat _ _ _ Eg), Hop.
        now rewrite (filter_bracket_repeat _ _ Hop).
Qed.

(** C4.  Whenever [parse] succeeds, decollapsing its result gives back the
    instruction symbols of the text, in order, with every other character
    removed; every instruction that is not a bracket has a run length of at
    least one; and the brackets of the result are, one for one and in
    order, the brackets of the text. *)
Theorem parse_decollapse prog ops :
  parse prog = Ok ops ->
  decollapse ops = filter is_symbol prog /\
  Forall run_length_ok ops /\
  filter is_bracket (kinds ops) = filter is_bracket (lex prog).
Proof.
  intros Hp. apply parse_Ok in Hp as (st & Hs & Hend & <- & _).
  apply scanning_collapse_inv in Hs as [Hloc Hdec Hlen Hbr].
  rewrite firstn_all2 in Hdec, Hbr by lia. auto.
Qed.

Lemma parse_decollapse_witness :
  decollapse [mkCollapsedToken Incr (Some 2); mkCollapsedToken Incr (Some 1);
              mkCollapsedToken JumpForward (Some 4);
              mkCollapsedToken Decr (Some 3);
              mkCollapsedToken JumpBackward (Some 2)]
    = filter is_symbol (lit "++ +[---]").
Proof.
  apply (parse_decollapse (lit "++ +[---]")). reflexivity.
Defined.

(** ** The executor *)

#[local] Arguments Z.eqb : simpl never.
#[local] Arguments Z.ltb : simpl never.
#[local] Arguments Z.gtb : simpl never.
#[local] Arguments Z.modulo : simpl never.
#[local] Arguments Z.add : simpl never.
#[local] Arguments Z.sub : simpl never.

(** Case analysis on the innermost [result] a goal matches on. *)
Ltac case_results :=
  repeat match goal with
         | |- context [match ?x with Ok _ => _ | Raise _ => _ end] =>
             lazymatch x with
             | context [match _ with Ok _ => _ | Raise _ => _ end] => fail
             | _ => destruct x eqn:?; try discriminate
             end
         end.

Section PySetFacts.
Context {A : Type}.
Implicit Types (l : list A) (i : Z) (x : A).

Lemma py_set_get l i x l' : py_set l i x = Ok l' -> py_get l' i = Ok x.
Proof.
  unfold py_set, py_get, py_index.
  destruct (_ && _) eqn:E; [|discriminate]. intros [= <-].
  rewrite set_nth_length, E.
  apply andb_prop in E as [E1 E2]. apply Z.leb_le in E1. apply Z.ltb_lt in E2.
  rewrite set_nth_same; [reflexivity|lia].
Qed.

Lemma py_set_defined l i x y :
  py_get l i = Ok y -> exists l', py_set l i x = Ok l'.
Proof.
  unfold py_set, py_get. destruct (_ && _); [eauto|discriminate].
Qed.

Lemma py_set_length l i x l' :
  py_set l i x = Ok l' -> List.length l' = List.length l.
Proof.
  unfold py_set. destruct (_ && _); [|discriminate]. intros [= <-].
  apply set_nth_length.
Qed.

Lemma py_set_Forall (P : A -> Prop) l i x l' :
  Forall P l -> P x -> py_set l i x = Ok l' -> Forall P l'.
Proof.
  unfold py_set. intros Hl Hx. destruct (_ && _); [|discriminate].
  intros [= <-]. now apply set_nth_Forall.
Qed.

Lemma set_nth_set_nth l n x y : set_nth (set_nth l n x) n y = set_nth l n y.
Proof.
  revert n. induction l as [|z r IH]; intros [|n]; simpl; auto.
  now rewrite IH.
Qed.

Lemma set_nth_id l n x : nth_error l n = Some x -> set_nth l n x = l.
Proof.
  revert n. induction l as [|z r IH]; intros [|n]; simpl; intros E;
    try discriminate.
  - now inversion E.
  - now rewrite IH.
Qed.

Lemma py_set_set l i x y l1 l2 :
  py_set l i x = Ok l1 -> py_set l1 i y = Ok l2 -> py_set l i y = Ok l2.
Proof.
  unfold py_set, py_index.
  destruct (_ && _) eqn:E; [|discriminate]. intros [= <-].
  rewrite set_nth_length, E. now rewrite set_nth_set_nth.
Qed.

Lemma py_set_id l i x : py_get l i = Ok x -> py_set l i x = Ok l.
Proof.
  unfold py_set, py_get. destruct (_ && _); [|discriminate].
  destruct (nth_error _ _) eqn:E; [|discriminate]. intros [= <-].
  now rewrite set_nth_id.
Qed.

Lemma py_get_In l i x : py_get l i = Ok x -> In x l.
Proof.
  unfold py_get. destruct (_ && _); [|discriminate].
  destruct (nth_error _ _) eqn:E; [|discriminate]. intros [= <-].
  eapply nth_error_In; eauto.
Qed.
End PySetFacts.

(** What the two inner loops of [run] leave unchanged. *)
Lemma for_range_write_frame n st st' :
  for_range n write_one st = Ok st' ->
  loc st' = loc st /\ ptr st' = ptr st /\ tape st' = tape st /\
  stdin_iter st' = stdin_iter st.
Proof.
  revert st. induction n as [|n IH]; simpl; intros st.
  - now intros [= <-].
  - unfold bind, write_one at 1, bind.
    destruct (py_get (tape st) (ptr st)); [|discriminate].
    destruct (chr a); [|discriminate]. intros E.
    apply IH in E. simpl in E. exact E.
Qed.

Lemma for_range_read_frame n st st' :
  for_range n read_one st = Ok st' ->
  loc st' = loc st /\ ptr st' = ptr st /\ stdout st' = stdout st /\
  List.length (tape st') = List.length (tape st) /\
  (stdin_iter st = [] -> stdin_iter st' = []).
Proof.
  revert st. induction n as [|n IH]; simpl; intros st.
  - intros [= <-]. auto.
  - unfold bind, read_one at 1, bind.
    destruct (next (stdin_iter st) 0) as [c it] eqn:En. simpl.
    destruct (py_set (tape st) (ptr st) (ord c)) as [tape'|] eqn:Es;
      [|discriminate].
    intros E. apply IH in E. simpl in E.
    destruct E as (-> & -> & -> & -> & Hin).
    apply py_set_length in Es.
    repeat split; auto. intros E0. apply Hin.
    rewrite E0 in En. simpl in En. congruence.
Qed.

(** [n >= 1] reads leave in the current cell the code of the [n]-th
    character of the input, or 0 when the input has fewer. *)
Lemma for_range_read n st cell :
  py_get (tape st) (ptr st) = Ok cell -> (1 <= n)%nat ->
  exists tape',
    py_set (tape st) (ptr st) (nth (n - 1) (stdin_iter st) 0) = Ok tape' /\
    for_range n read_one st
      = Ok (mkState (loc st) (ptr st) tape' (skipn n (stdin_iter st))
              (stdout st)).
Proof.
  revert st cell. induction n as [|n IH]; intros st cell Hcell Hn; [lia|].
  destruct (py_set_defined _ _ (ord (fst (next (stdin_iter st) 0))) _ Hcell)
    as [tape1 Es1].
  assert (Er : read_one st
               = Ok (mkState (loc st) (ptr st) tape1
                       (snd (next (stdin_iter st) 0)) (stdout st))).
  { unfold read_one. destruct (next (stdin_iter st) 0) as [c it]. simpl in *.
    now rewrite Es1. }
  simpl for_range. rewrite Er. simpl bind.
  destruct n as [|n].
  - simpl. exists tape1. split.
    + destruct (stdin_iter st); exact Es1.
    + destruct (stdin_iter st); reflexivity.
  - destruct (IH (mkState (loc st) (ptr st) tape1
                        (snd (next (stdin_iter st) 0)) (stdout st))
                  _ (py_set_get _ _ _ _ Es1)) as (tape2 & Es2 & Ef); [lia|].
    simpl loc in *. simpl ptr in *. simpl tape in *. simpl stdin_iter in *.
    simpl stdout in *. exists tape2. split.
    + apply (py_set_set _ _ _ _ _ _ Es1).
      replace (S (S n) - 1)%nat with (S n) by lia.
      replace (S n - 1)%nat with n in Es2 by lia.
      destruct (stdin_iter st) as [|c r]; simpl in *; [|exact Es2].
      destruct n; exact Es2.
    + rewrite Ef. destruct (stdin_iter st) as [|c r]; reflexivity.
Qed.

(** The effect of each kind of instruction. *)
Lemma execute_Incr n st :
  execute (mkCollapsedToken Incr (Some n)) st
  = (cell <- py_get (tape st) (ptr st) ;;
     tape' <- py_set (tape st) (ptr st) (to_u8 (cell + n)) ;;
     Ok (set_tape st tape')).
Proof.
  unfold execute, bind. simpl.
  destruct (py_get (tape st) (ptr st)); [|reflexivity].
  destruct (py_set _ _ _); reflexivity.
Qed.

Lemma execute_Decr n st :
  execute (mkCollapsedToken Decr (Some n)) st
  = (cell <- py_get (tape st) (ptr st) ;;
     tape' <- py_set (tape st) (ptr st) (to_u8 (cell - n)) ;;
     Ok (set_tape st tape')).
Proof.
  unfold execute, bind. simpl.
  destruct (py_get (tape st) (ptr st)); [|reflexivity].
  destruct (py_set _ _ _); reflexivity.
Qed.

Lemma execute_ReadStdIn n st :
  execute (mkCollapsedToken ReadStdIn (Some n)) st
  = for_range (range_len n) read_one st.
Proof.
  unfold execute, bind. simpl.
  destruct (for_range _ _ _); reflexivity.
Qed.

Lemma execute_PutStdOut n st :
  execute (mkCollapsedToken PutStdOut (Some n)) st
  = for_range (range_len n) write_one st.
Proof.
  unfold execute, bind. simpl.
  destruct (for_range _ _ _); reflexivity.
Qed.

Lemma execute_JumpForward op st st1 :
  token op = JumpForward -> execute op st = Ok st1 ->
  exists cell, py_get (tape st) (ptr st) = Ok cell /\
    ((cell = 0 /\ exists v, value op = Some v /\ st1 = set_loc st v) \/
     (cell <> 0 /\ st1 = st)).
Proof.
  unfold execute, bind. intros ->. simpl.
  destruct (py_get (tape st) (ptr st)) as [cell|]; [|discriminate].
  intros E. exists cell. split; [reflexivity|]. revert E.
  destruct (Z.eqb_spec cell 0) as [E0|Hne].
  - destruct (value op) as [v|]; [|discriminate]. simpl.
    intros [= <-]. left. eauto.
  - intros [= <-]. now right.
Qed.

Lemma execute_JumpBackward op st st1 :
  token op = JumpBackward -> execute op st = Ok st1 ->
  exists cell, py_get (tape st) (ptr st) = Ok cell /\
    ((cell <> 0 /\ exists v, value op = Some v /\ st1 = set_loc st v) \/
     (cell = 0 /\ st1 = st)).
Proof.
  unfold execute, bind. intros ->. simpl.
  destruct (py_get (tape st) (ptr st)) as [cell|]; [|discriminate].
  intros E. exists cell. split; [reflexivity|]. revert E.
  destruct (Z.eqb_spec cell 0) as [E0|Hne]; simpl.
  - intros [= <-]. now right.
  - destruct (value op) as [v|]; [|discriminate]. simpl.
    intros [= <-]. left. eauto.
Qed.

(** An instruction that is not a jump leaves the instruction pointer alone. *)
Lemma execute_loc op st st1 :
  is_bracket (token op) = false -> execute op st = Ok st1 ->
  loc st1 = loc st.
Proof.
  unfold execute, bind. destruct op as [k v]. simpl.
  destruct k; simpl; try discriminate; intros _;
    destruct v as [n|]; simpl; case_results; try discriminate;
    intros [= <-]; try reflexivity.
  - match goal with E : for_range _ _ _ = _ |- _ =>
      now apply for_range_read_frame in E end.
  - match goal with E : for_range _ _ _ = _ |- _ =>
      now apply for_range_write_frame in E end.
Qed.

Lemma to_u8_range v : in_cell_range (to_u8 v).
Proof.
  unfold in_cell_range, to_u8.
  pose proof (Z.mod_pos_bound v 255 ltac:(lia)). lia.
Qed.

(** No instruction other than a read takes a cell out of the range of
    [to_u8]. *)
Lemma execute_cells op st st1 :
  token op <> ReadStdIn -> execute op st = Ok st1 ->
  Forall in_cell_range (tape st) -> Forall in_cell_range (tape st1).
Proof.
  unfold execute, bind. destruct op as [k v]. simpl.
  destruct k; simpl; try congruence; intros _;
    destruct v as [n|]; simpl; case_results; try discriminate;
    try destruct (_ =? 0); simpl; try discriminate;
    intros [= <-]; intros Hr;
    repeat match goal with
           | E : Ok _ = Ok _ |- _ => injection E as <-
           end;
    simpl; auto;
    try solve [eapply py_set_Forall; eauto using to_u8_range].
  match goal with E : for_range _ _ _ = _ |- _ =>
    apply for_range_write_frame in E as (_ & _ & -> & _) end.
  exact Hr.
Qed.

Lemma initial_cells stdin : Forall in_cell_range (tape (initial stdin)).
Proof.
  apply Forall_forall. intros c Hc. apply repeat_spec in Hc. subst.
  unfold in_cell_range. lia.
Qed.

(** C2.  An increment by [n] leaves [(cell + n) mod 255] in the current
    cell and a decrement [(cell - n) mod 255], a value between 0 and 254
    also when [cell - n] is negative; in a run, from the zeroed tape, of
    instructions none of which is a read, every cell stays between 0 and
    254; and an increment by 255 of a cell in that range leaves the state
    as it was. *)
Theorem cell_arithmetic_mod_255 :
  (forall n st cell,
     py_get (tape st) (ptr st) = Ok cell ->
     exists st', execute (mkCollapsedToken Incr (Some n)) st = Ok st' /\
                 py_get (tape st') (ptr st') = Ok ((cell + n) mod 255)) /\
  (forall n st cell,
     py_get (tape st) (ptr st) = Ok cell ->
     exists st', execute (mkCollapsedToken Decr (Some n)) st = Ok st' /\
                 py_get (tape st') (ptr st') = Ok ((cell - n) mod 255) /\
                 0 <= (cell - n) mod 255 <= 254) /\
  (forall ops stdin st,
     Forall (fun t => token t <> ReadStdIn) ops ->
     reaches ops stdin st ->
     Forall in_cell_range (tape st)) /\
  (forall st cell,
     py_get (tape st) (ptr st) = Ok cell -> in_cell_range cell ->
     execute (mkCollapsedToken Incr (Some 255)) st = Ok st).
Proof.
  split; [|split; [|split]].
  - intros n st cell Hc. rewrite execute_Incr. unfold bind. rewrite Hc.
    destruct (py_set_defined _ _ (to_u8 (cell + n)) _ Hc) as [tape' Es].
    rewrite Es. eexists. split; [reflexivity|].
    simpl. now apply py_set_get in Es.
  - intros n st cell Hc. rewrite execute_Decr. unfold bind. rewrite Hc.
    destruct (py_set_defined _ _ (to_u8 (cell - n)) _ Hc) as [tape' Es].
    rewrite Es. eexists. split; [reflexivity|].
    simpl. split; [now apply py_set_get in Es|apply to_u8_range].
  - intros ops stdin st Hops. induction 1 as [|st st' Hr IH Hlt Hstep].
    + apply initial_cells.
    + unfold step, bind in Hstep.
      destruct (py_get ops (loc st)) as [op|] eqn:Eop; [|discriminate].
      destruct (execute op st) as [st1|] eqn:Ex; [|discriminate].
      injection Hstep as <-. simpl.
      apply (execute_cells op st st1); auto.
      apply py_get_In in Eop. rewrite Forall_forall in Hops. now apply Hops.
  - intros st cell Hc Hrange. rewrite execute_Incr. unfold bind. rewrite Hc.
    assert (to_u8 (cell + 255) = cell) as ->.
    { unfold to_u8, in_cell_range in *.
      rewrite <- (Z.mod_small cell 255) at 2 by lia.
      replace (cell + 255) with (cell + 1 * 255) by lia.
      apply Z.mod_add. lia. }
    rewrite (py_set_id _ _ _ Hc). now destruct st.
Qed.

Lemma cell_arithmetic_mod_255_witness :
  (exists st', execute (mkCollapsedToken Incr (Some 10))
                 (mkState 0 0 [250] [] []) = Ok st' /\
               py_get (tape st') (ptr st') = Ok 5) /\
  (exists st', execute (mkCollapsedToken Decr (Some 10))
                 (mkState 0 0 [3] [] []) = Ok st' /\
               py_get (tape st') (ptr st') = Ok 248 /\ 0 <= 248 <= 254) /\
  Forall in_cell_range (tape (initial [])) /\
  execute (mkCollapsedToken Incr (Some 255)) (mkState 0 0 [7] [] [])
    = Ok (mkState 0 0 [7] [] []).
Proof.
  destruct cell_arithmetic_mod_255 as (Hincr & Hdecr & Hrange & Hcycle).
  split; [|split; [|split]].
  - apply (Hincr 10 (mkState 0 0 [250] [] []) 250). reflexivity.
  - apply (Hdecr 10 (mkState 0 0 [3] [] []) 3). reflexivity.
  - apply (Hrange [mkCollapsedToken Incr (Some 1)] []).
    + constructor; [discriminate|constructor].
    + constructor.
  - apply (Hcycle (mkState 0 0 [7] [] []) 7); [reflexivity|].
    unfold in_cell_range. lia.
Defined.

(** ** Input and output *)

Lemma run_loop_S fuel ops st :
  run_loop (S fuel) ops st
  = if loc st <? len ops then
      match step ops st with
      | Ok st' => run_loop fuel ops st'
      | Raise e => Raised e
      end
    else Halted st.
Proof. reflexivity. Qed.

Lemma run_loop_halted fuel ops st :
  len ops <= loc st -> run_loop fuel ops st = Halted st.
Proof.
  intros H. destruct fuel; simpl; destruct (Z.ltb_spec (loc st) (len ops));
    try lia; reflexivity.
Qed.

Lemma initial_cell stdin :
  py_get (tape (initial stdin)) (ptr (initial stdin)) = Ok 0.
Proof. vm_compute. reflexivity. Qed.

(** Once exhausted, the input stays exhausted. *)
Lemma execute_exhausted op st st1 :
  stdin_iter st = [] -> execute op st = Ok st1 -> stdin_iter st1 = [].
Proof.
  unfold execute, bind. destruct op as [k v]. simpl.
  destruct k; simpl; destruct v as [n|]; simpl; case_results;
    try discriminate; try destruct (_ =? 0); simpl; try discriminate;
    intros Hin; intros [= <-];
    repeat match goal with
           | E : Ok _ = Ok _ |- _ => injection E as <-
           end;
    simpl; auto.
  - match goal with E : for_range _ _ _ = _ |- _ =>
      apply for_range_read_frame in E as (_ & _ & _ & _ & E) end.
    auto.
  - match goal with E : for_range _ _ _ = _ |- _ =>
      apply for_range_write_frame in E as (_ & _ & _ & ->) end.
    exact Hin.
Qed.

Lemma parse_run_lengths prog ops :
  parse prog = Ok ops -> Forall run_length_ok ops.
Proof.
  intros Hp. apply parse_Ok in Hp as (st & Hs & _ & <- & _).
  now apply scanning_collapse_inv in Hs as [_ _ Hlen _].
Qed.

Lemma tape_ok_cell st :
  tape_ok st -> exists cell, py_get (tape st) (ptr st) = Ok cell.
Proof. intros [Hp Hl]. apply py_get_defined. lia. Qed.

(** Moves wrap around the tape, and nothing changes its length. *)
Lemma execute_tape_ok op st st1 :
  run_length_ok op -> tape_ok st -> execute op st = Ok st1 -> tape_ok st1.
Proof.
  intros Hlen [Hp Hl].
  destruct (is_bracket (token op)) eqn:Eb.
  - intros Ex. destruct (token op) eqn:Et; try discriminate.
    + destruct (execute_JumpForward _ _ _ Et Ex)
        as (cell & _ & [(_ & v & _ & ->)|(_ & ->)]); now split.
    + destruct (execute_JumpBackward _ _ _ Et Ex)
        as (cell & _ & [(_ & v & _ & ->)|(_ & ->)]); now split.
  - destruct (Hlen Eb) as (n & Ev & Hn). clear Hlen.
    destruct op as [k v]. simpl in *. subst v.
    unfold execute, bind, tape_ok, TAPE_SIZE in *.
    destruct k; simpl; try discriminate; case_results; try discriminate;
      intros [= <-];
      repeat match goal with
             | E : Ok _ = Ok _ |- _ => injection E as <-
             end;
      simpl.
    + destruct (Z.gtb_spec (n + ptr st) (30000 - 1)).
      * pose proof (Z.mod_pos_bound (n + ptr st) 30000 ltac:(lia)). lia.
      * lia.
    + destruct (Z.ltb_spec (ptr st - n) 0).
      * pose proof (Z.mod_pos_bound (ptr st - n) 30000 ltac:(lia)). lia.
      * lia.
    + match goal with E : py_set _ _ _ = _ |- _ =>
        apply py_set_length in E; rewrite E end. lia.
    + match goal with E : py_set _ _ _ = _ |- _ =>
        apply py_set_length in E; rewrite E end. lia.
    + match goal with E : for_range _ _ _ = _ |- _ =>
        apply for_range_read_frame in E as (_ & -> & _ & -> & _) end. lia.
    + match goal with E : for_range _ _ _ = _ |- _ =>
        apply for_range_write_frame in E as (_ & -> & -> & _) end. lia.
Qed.

Lemma reaches_tape_ok prog ops stdin st :
  parse prog = Ok ops -> reaches ops stdin st -> tape_ok st.
Proof.
  intros Hp. induction 1 as [|st st' Hr IH Hlt Hstep].
  - unfold tape_ok, initial. cbn [ptr tape]. rewrite repeat_length.
    unfold TAPE_SIZE. lia.
  - unfold step, bind in Hstep.
    destruct (py_get ops (loc st)) as [op|] eqn:Eop; [|discriminate].
    destruct (execute op st) as [st1|] eqn:Ex; [|discriminate].
    injection Hstep as <-.
    assert (Hok : tape_ok st1).
    { apply (execute_tape_ok op st); auto.
      apply parse_run_lengths in Hp. rewrite Forall_forall in Hp.
      apply Hp. eapply py_get_In; eauto. }
    exact Hok.
Qed.

(** C8.  A read of run length [n >= 1] that finds fewer than [n] characters
    left in the input does not raise: it leaves 0 in the current cell and
    the input exhausted, and writes nothing; this is what a read step of
    any parsed program does, in any state of a run on any input, when fewer
    characters are left than it reads; an exhausted input stays exhausted
    whatever is executed next, so every later read does the same; and the
    program of a single read, run with empty input, terminates with 0 in
    the current cell and no output. *)
Theorem read_exhausted_stores_null :
  (forall n st cell,
     py_get (tape st) (ptr st) = Ok cell ->
     1 <= n -> len (stdin_iter st) < n ->
     exists st', execute (mkCollapsedToken ReadStdIn (Some n)) st = Ok st' /\
                 py_get (tape st') (ptr st') = Ok 0 /\
                 stdin_iter st' = [] /\ stdout st' = stdout st /\
                 ptr st' = ptr st /\ loc st' = loc st) /\
  (forall prog ops stdin st n,
     parse prog = Ok ops -> reaches ops stdin st ->
     py_get ops (loc st) = Ok (mkCollapsedToken ReadStdIn (Some n)) ->
     len (stdin_iter st) < n ->
     exists st', step ops st = Ok st' /\
                 py_get (tape st') (ptr st') = Ok 0 /\
                 stdin_iter st' = [] /\ stdout st' = stdout st) /\
  (forall op st st',
     stdin_iter st = [] -> execute op st = Ok st' -> stdin_iter st' = []) /\
  (exists fuel st,
     run_bf fuel (lit ",") [] = Halted st /\
     py_get (tape st) (ptr st) = Ok 0 /\ stdout st = []).
Proof.
  assert (Hread : forall n st cell,
     py_get (tape st) (ptr st) = Ok cell ->
     1 <= n -> len (stdin_iter st) < n ->
     exists st', execute (mkCollapsedToken ReadStdIn (Some n)) st = Ok st' /\
                 py_get (tape st') (ptr st') = Ok 0 /\
                 stdin_iter st' = [] /\ stdout st' = stdout st /\
                 ptr st' = ptr st /\ loc st' = loc st).
  { intros n st cell Hc Hn Hlen. rewrite execute_ReadStdIn.
    destruct (for_range_read (range_len n) st cell Hc) as (tape' & Es & ->).
    { unfold range_len. lia. }
    eexists. split; [reflexivity|]. simpl.
    rewrite nth_overflow in Es by (unfold range_len; lia).
    rewrite skipn_all2 by (unfold range_len; lia).
    apply py_set_get in Es. auto. }
  split; [exact Hread|]. split; [|split].
  - intros prog ops stdin st n Hp Hr Eop Hlen.
    destruct (tape_ok_cell st (reaches_tape_ok _ _ _ _ Hp Hr)) as [cell Hc].
    assert (Hn : 1 <= n).
    { pose proof (parse_run_lengths _ _ Hp) as Hl.
      rewrite Forall_forall in Hl.
      destruct (Hl _ (py_get_In _ _ _ Eop) eq_refl) as (m & [= <-] & Hm).
      exact Hm. }
    destruct (Hread n st cell Hc Hn Hlen) as (st1 & Ex & H0 & Hin & Hout & Hptr & _).
    unfold step, bind. rewrite Eop, Ex. eexists. split; [reflexivity|].
    simpl. auto.
  - apply execute_exhausted.
  - exists 1%nat.
    assert (Ep : parse (bf_to_one_line (lit ","))
                 = Ok [mkCollapsedToken ReadStdIn (Some 1)]) by reflexivity.
    unfold run_bf, run. rewrite Ep, run_loop_S.
    change (loc (initial []) <? len [mkCollapsedToken ReadStdIn (Some 1)])
      with true. cbv iota.
    unfold step, bind.
    change (py_get [mkCollapsedToken ReadStdIn (Some 1)] (loc (initial [])))
      with (Ok (mkCollapsedToken ReadStdIn (Some 1))). cbv iota beta.
    rewrite execute_ReadStdIn.
    destruct (for_range_read (range_len 1) (initial []) 0 (initial_cell []))
      as (tape' & Es & ->); [unfold range_len; lia|].
    rewrite run_loop_halted by (simpl; lia).
    eexists. split; [reflexivity|]. split; [|reflexivity].
    simpl. now apply py_set_get in Es.
Qed.

Lemma read_exhausted_stores_null_witness :
  exists st', execute (mkCollapsedToken ReadStdIn (Some 3))
                (mkState 0 0 [9] [65; 66] []) = Ok st' /\
              py_get (tape st') (ptr st') = Ok 0 /\
              stdin_iter st' = [] /\ stdout st' = [] /\
              ptr st' = 0 /\ loc st' = 0.
Proof.
  apply (proj1 read_exhausted_stores_null 3 (mkState 0 0 [9] [65; 66] []) 9).
  - reflexivity.
  - lia.
  - simpl. lia.
Defined.

(** C10.  A read stores the code of the character read as it is; so for
    every character of code 255 or more the program of a read and a write
    terminates with that code, which is outside the range 0 to 254, in the
    current cell, and has written that same character. *)
Theorem read_stores_unreduced_code :
  (forall st c rest cell,
     stdin_iter st = c :: rest ->
     py_get (tape st) (ptr st) = Ok cell ->
     exists st', execute (mkCollapsedToken ReadStdIn (Some 1)) st = Ok st' /\
                 py_get (tape st') (ptr st') = Ok c /\
                 stdin_iter st' = rest) /\
  (forall c,
     255 <= c < 1114112 ->
     exists fuel st,
       run_bf fuel (lit ",.") [c] = Halted st /\
       py_get (tape st) (ptr st) = Ok c /\
       ~ in_cell_range c /\
       stdout st = [c]).
Proof.
  split.
  - intros st c rest cell Hin Hc. rewrite execute_ReadStdIn.
    destruct (for_range_read (range_len 1) st cell Hc) as (tape' & Es & ->);
      [unfold range_len; lia|].
    rewrite Hin in *. simpl in Es.
    eexists. split; [reflexivity|]. simpl. split; [|reflexivity].
    now apply py_set_get in Es.
  - intros c Hc. exists 2%nat.
    assert (Ep : parse (bf_to_one_line (lit ",."))
                 = Ok [mkCollapsedToken ReadStdIn (Some 1);
                       mkCollapsedToken PutStdOut (Some 1)]) by reflexivity.
    unfold run_bf, run. rewrite Ep. set (ops := [_; _]).
    rewrite run_loop_S.
    change (loc (initial [c]) <? len ops) with true. cbv iota.
    unfold step at 1, bind.
    change (py_get ops (loc (initial [c])))
      with (Ok (mkCollapsedToken ReadStdIn (Some 1))). cbv iota beta.
    rewrite execute_ReadStdIn.
    destruct (for_range_read (range_len 1) (initial [c]) 0 (initial_cell [c]))
      as (tape' & Es & ->); [unfold range_len; lia|].
    change (nth (range_len 1 - 1) (stdin_iter (initial [c])) 0) with c in Es.
    apply py_set_get in Es.
    change (ptr (initial [c])) with 0 in *.
    rewrite run_loop_S. unfold set_loc at 1. simpl loc.
    change (0 + 1 <? len ops) with true. cbv iota.
    unfold step, bind. simpl loc.
    change (py_get ops (0 + 1))
      with (Ok (mkCollapsedToken PutStdOut (Some 1))). cbv iota beta.
    rewrite execute_PutStdOut.
    change (range_len 1) with 1%nat. simpl for_range.
    unfold write_one, bind. simpl. rewrite Es.
    unfold chr. destruct (Z.leb_spec 0 c); [|lia].
    destruct (Z.ltb_spec c 1114112); [|lia]. simpl.
    eexists. split; [reflexivity|]. simpl.
    split; [exact Es|]. split; [|reflexivity].
    unfold in_cell_range. lia.
Qed.

Lemma read_stores_unreduced_code_witness :
  exists fuel st,
    run_bf fuel (lit ",.") [255] = Halted st /\
    py_get (tape st) (ptr st) = Ok 255 /\
    ~ in_cell_range 255 /\
    stdout st = [255].
Proof.
  apply (proj2 read_stores_unreduced_code 255). lia.
Defined.

(** ** The instruction pointer *)

Lemma run_loop_Halted_loc fuel ops st st' :
  run_loop fuel ops st = Halted st' -> len ops <= loc st'.
Proof.
  revert st. induction fuel as [|fuel IH]; intros st; simpl;
    destruct (Z.ltb_spec (loc st) (len ops)); try discriminate.
  - intros [= <-]. lia.
  - destruct (step ops st); [apply IH|discriminate].
  - intros [= <-]. lia.
Qed.

(** More fuel does not change how a run that halted ends. *)
Lemma run_loop_more_fuel fuel fuel' ops st st' :
  run_loop fuel ops st = Halted st' -> (fuel <= fuel')%nat ->
  run_loop fuel' ops st = Halted st'.
Proof.
  revert fuel' st. induction fuel as [|fuel IH]; intros fuel' st; simpl;
    destruct (Z.ltb_spec (loc st) (len ops)); try discriminate.
  - intros [= <-] _. apply run_loop_halted. lia.
  - destruct fuel' as [|fuel']; [lia|]. intros E Hle. rewrite run_loop_S.
    destruct (Z.ltb_spec (loc st) (len ops)); [|lia].
    destruct (step ops st); [|discriminate]. apply IH; [exact E|lia].
  - intros [= <-] _. apply run_loop_halted. lia.
Qed.

(** Where a step of a parsed program leaves the instruction pointer. *)
Lemma step_parsed prog ops st st' :
  parse prog = Ok ops -> 0 <= loc st -> step ops st = Ok st' ->
  advances ops st st'.
Proof.
  intros Hp Hloc Hstep. unfold advances. unfold step, bind in Hstep.
  destruct (py_get ops (loc st)) as [op|] eqn:Eop; [|discriminate].
  destruct (execute op st) as [st1|] eqn:Ex; [|discriminate].
  injection Hstep as <-. exists op, st1.
  split; [reflexivity|]. split; [exact Ex|]. split; [reflexivity|].
  destruct (token op) eqn:Et;
    try (apply execute_loc in Ex; [exact Ex|now rewrite Et]).
  - destruct (execute_JumpForward _ _ _ Et Ex) as (cell & Hc & Hcase).
    exists cell. split; [exact Hc|].
    destruct Hcase as [(H0 & v & Ev & ->)|(Hne & ->)]; [left|now right].
    split; [exact H0|].
    destruct (parse_forward _ _ _ _ Hp Hloc Eop Et) as (j & Ej & Hm).
    exists j. split; [exact Hm|]. simpl. congruence.
  - destruct (execute_JumpBackward _ _ _ Et Ex) as (cell & Hc & Hcase).
    exists cell. split; [exact Hc|].
    destruct Hcase as [(Hne & v & Ev & ->)|(H0 & ->)]; [left|now right].
    split; [exact Hne|].
    destruct (parse_backward _ _ _ _ Hp Hloc Eop Et) as (i & Ei & Hm).
    exists i. split; [exact Hm|]. simpl. congruence.
Qed.

Lemma matched_bound ts i j : matched ts i j -> 0 <= i < j /\ j < len ts.
Proof.
  intros (Hij & _ & Hj & _). split; [exact Hij|].
  eapply py_get_bound; [|exact Hj]. lia.
Qed.

Lemma reaches_loc prog ops stdin st :
  parse prog = Ok ops -> reaches ops stdin st -> 0 <= loc st <= len ops.
Proof.
  intros Hp. induction 1 as [|st st' Hr IH Hlt Hstep].
  - simpl. lia.
  - destruct (step_parsed _ _ _ _ Hp (proj1 IH) Hstep)
      as (op & st1 & Eop & Ex & -> & Hcase).
    destruct (token op);
      try (rewrite Hcase; lia);
      destruct Hcase as (cell & _ & [(_ & k & Hm & ->)|(_ & ->)]);
      try lia; apply matched_bound in Hm; lia.
Qed.

(** C5.  In a run of a parsed program the instruction pointer stays
    between 0 and the length of the sequence, and the loop exits exactly
    when it equals that length.  Every step executes the instruction under
    the pointer and then adds one to the pointer: an instruction that is not
    a jump, or a jump not taken, leaves the pointer alone, so the step ends
    one further; a taken jump-if-zero sets it to the index of the matching
    jump-if-nonzero and a taken jump-if-nonzero to the index of the matching
    jump-if-zero, so the step ends just after that instruction. *)
Theorem step_advances_by_one prog ops stdin st :
  parse prog = Ok ops ->
  reaches ops stdin st ->
  0 <= loc st <= len ops /\
  (forall fuel, run_loop fuel ops st = Halted st <-> loc st = len ops) /\
  (forall st', step ops st = Ok st' -> advances ops st st').
Proof.
  intros Hp Hr. pose proof (reaches_loc _ _ _ _ Hp Hr) as Hloc.
  split; [exact Hloc|]. split.
  - intros fuel. split.
    + intros E. apply run_loop_Halted_loc in E. lia.
    + intros E. apply run_loop_halted. lia.
  - intros st'. apply (step_parsed prog); [exact Hp|lia].
Qed.

Lemma step_advances_by_one_witness :
  0 <= loc (initial []) <= 2.
Proof.
  apply (step_advances_by_one (lit "[]")
           [mkCollapsedToken JumpForward (Some 1);
            mkCollapsedToken JumpBackward (Some 0)] [] (initial [])).
  - reflexivity.
  - constructor.
Defined.

(** ** End to end *)

(** C1.  Run with empty input, the Hello World program terminates and has
    written exactly the characters of "Hello World!" and a newline. *)
Theorem hello_world_output :
  exists fuel,
    halted_stdout (run_bf fuel hello_world [])
      = Some (lit "Hello World!" ++ [10]).
Proof. exists 1000%nat. vm_compute. reflexivity. Qed.

(** The other scenarios of the specification: an echo, and the empty
    program. *)
Example echo_one_character :
  halted_stdout (run_bf 2 (lit ",.") (lit "A")) = Some (lit "A").
Proof. vm_compute. reflexivity. Qed.

Example empty_program :
  halted_stdout (run_bf 0 [] []) = Some [].
Proof. vm_compute. reflexivity. Qed.

(** * Further properties *)

(** ** [BFToken.get] *)

(** X1.  Looking a symbol up gives back the member it is the value of, a
    character that is looked up successfully is the value of the member
    found, and no two members share a symbol. *)
Theorem BFToken_get_inverts_value :
  (forall t, BFToken_get (BFToken_value t) = Some t) /\
  (forall c t, BFToken_get c = Some t -> c = BFToken_value t) /\
  (forall t t', BFToken_value t = BFToken_value t' -> t = t').
Proof.
  split; [exact BFToken_get_value|]. split; [exact BFToken_get_Some|].
  intros t t' E. pose proof (BFToken_get_value t) as Ht.
  rewrite E, BFToken_get_value in Ht. congruence.
Qed.

Lemma BFToken_get_inverts_value_witness :
  ord_ascii "+" = BFToken_value Incr.
Proof.
  apply (proj1 (proj2 BFToken_get_inverts_value) (ord_ascii "+") Incr).
  reflexivity.
Defined.

(** ** When [parse] fails *)

Lemma count_run_Ok prog symbol pos count :
  0 <= pos -> exists r, count_run prog symbol pos count = Ok r.
Proof.
  funelim (count_run prog symbol pos count); intros Hpos.
  - apply H. lia.
  - eauto.
  - exfalso. clear H Heqcall.
    match goal with Hr : run_continues _ _ ?p = Raise _ |- _ =>
      unfold run_continues, bind in Hr; revert Hr;
      destruct (Z.ltb_spec p (len prog)) as [Hlt|]; [|discriminate];
      destruct (py_get_defined prog p (conj Hpos Hlt)) as [c ->]
    end.
    discriminate.
Qed.

Lemma level_filter d ks : level d (filter is_bracket ks) = level d ks.
Proof.
  revert d. induction ks as [|k r IH]; intros d; [reflexivity|].
  destruct k; simpl; try apply IH. destruct d; [reflexivity|apply IH].
Qed.

Lemma chain_level ks sk : chain ks sk -> level 0 ks = Some (List.length sk).
Proof.
  induction 1 as [ks B|pre seg sk C IH B].
  - now apply balanced_from_level.
  - rewrite level_app, IH. simpl. rewrite length_app. simpl.
    apply balanced_from_level in B.
    apply (level_shift _ _ (S (List.length sk))) in B. simpl in B.
    rewrite B. f_equal. lia.
Qed.

(** The nesting level of the brackets scanned so far is the height of the
    bracket stack. *)
Lemma scanning_level prog st :
  scanning prog st ->
  level 0 (lex (firstn (Z.to_nat (scan_loc st)) prog))
    = Some (List.length (bracket_stack st)).
Proof.
  intros Hs. pose proof (scanning_collapse_inv _ _ Hs) as [_ _ _ Hbr].
  pose proof (scanning_bracket_inv _ _ Hs) as [Hc _ _ _].
  rewrite <- level_filter, <- Hbr, level_filter. now apply chain_level.
Qed.

(** An iteration of the outer loop fails only on a closer met with an empty
    stack. *)
Lemma parse_body_raise prog st e :
  scanning prog st -> scan_loc st < len prog ->
  parse_body prog st = Raise e ->
  e = MismatchedBrackets (Position (scan_loc st + 1)) /\
  py_get prog (scan_loc st) = Ok (BFToken_value JumpBackward) /\
  bracket_stack st = [].
Proof.
  intros Hs Hlt.
  pose proof (scanning_collapse_inv _ _ Hs) as [Hloc _ _ _].
  pose proof (scanning_bracket_inv _ _ Hs) as [_ Hst _ _].
  destruct (py_get_defined prog (scan_loc st)) as [symbol Es]; [lia|].
  unfold parse_body, bind. rewrite Es.
  destruct (BFToken_get symbol) as [op|] eqn:Eop; [|discriminate].
  apply BFToken_get_Some in Eop. subst symbol.
  destruct op; simpl;
    try match goal with
        | |- context [count_run ?p ?c ?l ?n] =>
            destruct (count_run_Ok p c l n) as [[pos count] ->];
            [lia|discriminate]
        end.
  - discriminate.
  - destruct (bracket_stack st) as [|z l] eqn:Esk; simpl.
    + intros [= <-]. auto.
    + destruct (is_empty_false (z :: l) eq_refl) as (rest & s & E).
      rewrite E in *. rewrite py_pop_snoc.
      apply Forall_app in Hst as [_ Hst].
      inversion Hst as [|? ? [Hs0 Eu] _]; subst.
      rewrite Eu. simpl.
      destruct (py_set_defined (tokens st) s
                  (_replace (mkCollapsedToken JumpForward None)
                     (Some (len (tokens st)))) _ Eu) as [ts' ->].
      discriminate.
Qed.

Lemma lex_split (prog : str) k c :
  nth_error prog k = Some c ->
  lex prog = lex (firstn k prog) ++ lex [c] ++ lex (skipn (S k) prog).
Proof.
  intros E. rewrite <- !lex_app. simpl. now rewrite firstn_skipn_middle.
Qed.

(** How [parse] ends, by the nesting level of the brackets of the text. *)
Lemma parse_outcome prog :
  match parse prog with
  | Ok ops => level 0 (lex prog) = Some O
  | Raise e =>
      (exists k, e = MismatchedBrackets (Position (k + 1)) /\
                 first_unmatched_closer prog k /\
                 level 0 (lex prog) = None) \/
      (exists i d, e = MismatchedBrackets (Position i) /\
                   level 0 (lex prog) = Some (S d))
  end.
Proof.
  unfold parse, bind.
  destruct (parse_loop prog (mkParser 0 [] [])) as [st|e] eqn:E.
  - apply parse_loop_exit in E as [Hs Hend]; [|constructor].
    pose proof (scanning_level _ _ Hs) as Hl.
    rewrite firstn_all2 in Hl by lia.
    destruct (bracket_stack st) as [|z l] eqn:Esk; simpl; [exact Hl|].
    destruct (is_empty_false (z :: l) eq_refl) as (rest & s & Es).
    rewrite Es in *. rewrite py_pop_snoc. right. exists s, (List.length rest).
    split; [reflexivity|]. rewrite Hl, length_app. simpl. f_equal. lia.
  - apply parse_loop_raise in E as (st & Hs & Hlt & Eb); [|constructor].
    pose proof (scanning_collapse_inv _ _ Hs) as [Hloc _ _ _].
    pose proof (scanning_level _ _ Hs) as Hl.
    destruct (parse_body_raise _ _ _ Hs Hlt Eb) as (-> & Ec & Esk).
    rewrite Esk in Hl. simpl in Hl.
    left. exists (scan_loc st). split; [reflexivity|]. split.
    + split; [lia|]. split; [exact Ec|]. now apply balanced_from_level.
    + apply py_get_nth in Ec; [|lia].
      rewrite (lex_split _ _ _ Ec), level_app, Hl. reflexivity.
Qed.

(** X2.  Whatever the text, the only exception [parse] raises is
    [MismatchedBrackets] with a position: no index or type error escapes
    it, nor the error of line 62. *)
Theorem parse_raises_only_mismatch prog e :
  parse prog = Raise e -> exists n, e = MismatchedBrackets (Position n).
Proof.
  intros E. pose proof (parse_outcome prog) as H. rewrite E in H.
  destruct H as [(k & -> & _)|(i & d & -> & _)]; eauto.
Qed.

Lemma parse_raises_only_mismatch_witness :
  exists n, MismatchedBrackets (Position 2) = MismatchedBrackets (Position n).
Proof.
  apply (parse_raises_only_mismatch (lit "+]")). reflexivity.
Defined.

(** X3.  [parse] succeeds exactly on the texts whose brackets are balanced. *)
Theorem parse_succeeds_iff_balanced prog :
  (exists ops, parse prog = Ok ops) <-> balanced (lex prog) = true.
Proof.
  pose proof (parse_outcome prog) as H. split.
  - intros [ops E]. rewrite E in H. now apply balanced_from_level.
  - intros B. apply balanced_from_level in B.
    destruct (parse prog) as [ops|e]; [eauto|].
    destruct H as [(k & _ & _ & H)|(i & d & _ & H)]; congruence.
Qed.

(** X4.  When the closer at offset [k] is the first one without an opener,
    [parse] raises [MismatchedBrackets] with [k + 1]: the offset of that
    closer, counted from one. *)
Theorem parse_reports_first_unmatched_closer prog k :
  first_unmatched_closer prog k ->
  parse prog = Raise (MismatchedBrackets (Position (k + 1))).
Proof.
  intros (Hk & Ec & Hb). pose proof (parse_outcome prog) as H.
  apply balanced_from_level in Hb.
  assert (Hnone : level 0 (lex prog) = None).
  { pose proof Ec as En. apply py_get_nth in En; [|lia].
    rewrite (lex_split _ _ _ En), level_app, Hb. reflexivity. }
  destruct (parse prog) as [ops|e]; [congruence|].
  destruct H as [(k' & -> & (Hk' & Ec' & Hb') & _)|(i & d & _ & H)];
    [|congruence].
  apply balanced_from_level in Hb'.
  destruct (Z.lt_trichotomy k k') as [Hlt|[->|Hgt]]; [exfalso|reflexivity|exfalso].
  - apply py_get_nth in Ec; [|lia].
    assert (En : nth_error (firstn (Z.to_nat k') prog) (Z.to_nat k)
                 = Some (BFToken_value JumpBackward)).
    { rewrite nth_error_firstn.
      destruct (Nat.ltb_spec (Z.to_nat k) (Z.to_nat k')); [exact Ec|lia]. }
    rewrite (lex_split _ _ _ En), level_app in Hb'.
    rewrite firstn_firstn in Hb'.
    replace (Nat.min (Z.to_nat k) (Z.to_nat k')) with (Z.to_nat k) in Hb'
      by lia.
    rewrite Hb in Hb'. discriminate.
  - apply py_get_nth in Ec'; [|lia].
    assert (En : nth_error (firstn (Z.to_nat k) prog) (Z.to_nat k')
                 = Some (BFToken_value JumpBackward)).
    { rewrite nth_error_firstn.
      destruct (Nat.ltb_spec (Z.to_nat k') (Z.to_nat k)); [exact Ec'|lia]. }
    rewrite (lex_split _ _ _ En), level_app in Hb.
    rewrite firstn_firstn in Hb.
    replace (Nat.min (Z.to_nat k') (Z.to_nat k)) with (Z.to_nat k') in Hb
      by lia.
    rewrite Hb' in Hb. discriminate.
Qed.

Lemma parse_reports_first_unmatched_closer_witness :
  parse (lit "[-]+]") = Raise (MismatchedBrackets (Position (4 + 1))).
Proof.
  apply (parse_reports_first_unmatched_closer (lit "[-]+]") 4).
  split; [lia|]. split; reflexivity.
Defined.

(** ** [bf_to_one_line] *)

Definition not_newline (c : Z) : bool := negb (c =? 10).

Lemma split_lines_concat cur prog :
  List.concat (split_lines cur prog) = cur ++ filter not_newline prog.
Proof.
  revert cur. induction prog as [|c r IH]; intros cur; simpl.
  - reflexivity.
  - unfold not_newline at 1. destruct (c =? 10); simpl.
    + now rewrite IH.
    + now rewrite IH, <- app_assoc.
Qed.

Lemma lex_not_newline prog : lex (filter not_newline prog) = lex prog.
Proof.
  induction prog as [|c r IH]; [reflexivity|]. simpl.
  unfold not_newline at 1. destruct (Z.eqb_spec c 10) as [->|Hne]; simpl.
  - exact IH.
  - unfold lex in *. simpl. now rewrite IH.
Qed.

Lemma filter_symbol_not_newline prog :
  filter is_symbol (filter not_newline prog) = filter is_symbol prog.
Proof.
  induction prog as [|c r IH]; [reflexivity|]. simpl.
  unfold not_newline at 1. destruct (Z.eqb_spec c 10) as [->|Hne]; simpl.
  - exact IH.
  - now rewrite IH.
Qed.

(** X5.  [bf_to_one_line] removes the newline characters and nothing else:
    what is left is the other characters, in order; a text without newlines
    is returned as it is. *)
Theorem bf_to_one_line_drops_newlines prog :
  bf_to_one_line prog = filter not_newline prog /\
  ~ In 10 (bf_to_one_line prog) /\
  (~ In 10 prog -> bf_to_one_line prog = prog).
Proof.
  assert (E : bf_to_one_line prog = filter not_newline prog)
    by apply (split_lines_concat [] prog).
  split; [exact E|]. rewrite E. split.
  - intros Hin. apply filter_In in Hin as [_ Hin]. discriminate.
  - intros Hnot. apply forallb_filter_id. apply forallb_forall.
    intros c Hc. unfold not_newline.
    destruct (Z.eqb_spec c 10) as [->|]; [contradiction|reflexivity].
Qed.

Lemma bf_to_one_line_drops_newlines_witness :
  bf_to_one_line (lit "+-") = lit "+-".
Proof.
  apply (bf_to_one_line_drops_newlines (lit "+-")).
  simpl. intros [H|[H|[]]]; discriminate.
Defined.

(** X6.  Flattening the lines does not change the instructions [run_bf]
    parses: the text and its flattening have the same instruction symbols,
    [parse] succeeds on one exactly when it succeeds on the other, and what
    [parse] returns on the flattening decollapses to the instruction
    symbols of the text. *)
Theorem flattening_keeps_instructions prog :
  lex (bf_to_one_line prog) = lex prog /\
  ((exists ops, parse (bf_to_one_line prog) = Ok ops)
   <-> (exists ops, parse prog = Ok ops)) /\
  (forall ops, parse (bf_to_one_line prog) = Ok ops ->
               decollapse ops = filter is_symbol prog).
Proof.
  assert (E : bf_to_one_line prog = filter not_newline prog)
    by apply (split_lines_concat [] prog).
  assert (El : lex (bf_to_one_line prog) = lex prog)
    by (rewrite E; apply lex_not_newline).
  split; [exact El|]. split.
  - pose proof (parse_outcome (bf_to_one_line prog)) as H1.
    pose proof (parse_outcome prog) as H2. rewrite El in H1.
    destruct (parse (bf_to_one_line prog)) as [ops1|e1],
      (parse prog) as [ops2|e2]; split; intros [ops Eo]; eauto;
      try discriminate.
    + destruct H2 as [(? & _ & _ & H2)|(? & ? & _ & H2)]; congruence.
    + destruct H1 as [(? & _ & _ & H1)|(? & ? & _ & H1)]; congruence.
  - intros ops Hp. apply parse_Ok in Hp as (st & Hs & Hend & <- & _).
    apply scanning_collapse_inv in Hs as [_ Hdec _ _].
    rewrite firstn_all2 in Hdec by lia. rewrite Hdec, E.
    apply filter_symbol_not_newline.
Qed.

Lemma flattening_keeps_instructions_witness :
  decollapse [mkCollapsedToken Incr (Some 2)]
    = filter is_symbol (lit "+" ++ [10] ++ lit "+").
Proof.
  apply (flattening_keeps_instructions (lit "+" ++ [10] ++ lit "+")).
  reflexivity.
Defined.

(** ** The size and shape of what [parse] returns *)

Lemma expand_length t :
  run_length_ok t -> (1 <= List.length (expand t))%nat.
Proof.
  unfold run_length_ok, expand. destruct (is_bracket (token t)).
  - intros _. simpl. lia.
  - intros H. destruct (H eq_refl) as (n & -> & Hn).
    rewrite repeat_length. lia.
Qed.

Lemma decollapse_length ts :
  Forall run_length_ok ts ->
  (List.length ts <= List.length (decollapse ts))%nat.
Proof.
  induction 1 as [|t r Ht Hr IH]; simpl; [lia|].
  rewrite length_app. pose proof (expand_length t Ht). lia.
Qed.

(** X7.  Collapsing never makes the program longer: [parse] returns at most
    as many instructions as the text has instruction symbols. *)
Theorem parse_no_longer_than_text prog ops :
  parse prog = Ok ops ->
  len ops <= len (filter is_symbol prog) <= len prog.
Proof.
  intros Hp. apply parse_Ok in Hp as (st & Hs & Hend & <- & _).
  apply scanning_collapse_inv in Hs as [_ Hdec Hlen _].
  rewrite firstn_all2 in Hdec by lia. rewrite <- Hdec.
  pose proof (decollapse_length _ Hlen) as H1.
  pose proof (filter_length_le is_symbol prog) as H2.
  rewrite <- Hdec in H2. lia.
Qed.

Lemma parse_no_longer_than_text_witness :
  len [mkCollapsedToken Incr (Some 3)]
    <= len (filter is_symbol (lit "+++")) <= len (lit "+++").
Proof.
  apply (parse_no_longer_than_text (lit "+++")).
  reflexivity.
Defined.

(** The inner loop stops at the end of the text or on a character that is
    not the symbol of the run. *)
Lemma count_run_maximal prog symbol pos count pos' count' :
  count_run prog symbol pos count = Ok (pos', count') -> 0 <= pos ->
  nth_error prog (Z.to_nat pos') <> Some symbol.
Proof.
  funelim (count_run prog symbol pos count); intros E Hpos.
  - eapply H; [exact E|lia].
  - inversion E; subst. clear H Heqcall E.
    match goal with Hr : run_continues _ _ _ = Ok false |- _ =>
      unfold run_continues, bind in Hr; revert Hr end.
    destruct (Z.ltb_spec pos' (len prog)) as [Hlt|Hge].
    + destruct (py_get prog pos') as [c|] eqn:Eg; [|discriminate].
      intros [= Hc]. apply Z.eqb_neq in Hc.
      apply py_get_nth in Eg; [|lia]. congruence.
    + intros _. assert (nth_error prog (Z.to_nat pos') = None) as ->
        by (apply nth_error_None; lia).
      discriminate.
  - discriminate.
Qed.

(** No two neighbours are the same instruction, brackets apart. *)
Definition adjacent_differ (ks : list BFToken) : Prop :=
  forall i k, nth_error ks i = Some k -> nth_error ks (S i) = Some k ->
              is_bracket k = true.

Lemma adjacent_differ_snoc ks x :
  adjacent_differ ks ->
  (forall ks', ks = ks' ++ [x] -> is_bracket x = true) ->
  adjacent_differ (ks ++ [x]).
Proof.
  intros Hadj Hlast i k E1 E2.
  assert (Hi : (S i < List.length (ks ++ [x]))%nat)
    by (apply nth_error_Some; congruence).
  rewrite length_app in Hi. simpl in Hi.
  destruct (Nat.eq_dec (S i) (List.length ks)) as [Heq|Hne].
  - rewrite nth_error_app2 in E2 by lia.
    replace (S i - List.length ks)%nat with O in E2 by lia.
    injection E2 as <-.
    rewrite nth_error_app1 in E1 by lia.
    apply (Hlast (firstn i ks)).
    rewrite <- (firstn_skipn_middle _ _ E1) at 1.
    rewrite skipn_all2 by lia. reflexivity.
  - rewrite nth_error_app1 in E1, E2 by lia. exact (Hadj i k E1 E2).
Qed.

(** The invariant of the outer loop on a text without comments: runs were
    collapsed whole. *)
Record maximal_inv (prog : str) (st : parser) : Prop := {
  inv_adjacent : adjacent_differ (kinds (tokens st));
  inv_last : forall ks k,
    kinds (tokens st) = ks ++ [k] -> is_bracket k = false ->
    nth_error prog (Z.to_nat (scan_loc st)) <> Some (BFToken_value k)
}.

Lemma scanning_maximal_inv prog st :
  Forall (fun c => is_symbol c = true) prog ->
  scanning prog st -> maximal_inv prog st.
Proof.
  intros Hsym. induction 1 as [|st st' Hsc [Hadj Hlast] Hlt Hbody].
  - split.
    + intros [|i] k E; discriminate.
    + intros [|? ?] k E; discriminate.
  - pose proof (scanning_collapse_inv _ _ Hsc) as [Hloc _ _ _].
    apply parse_body_step in Hbody.
    destruct Hbody as [symbol Es Eg|symbol Es Eg
                      |symbol open_idx rest opened tokens' Es Eg Ek Eo Et Ev Eset
                      |symbol op pos count Es Eg Hop Ec]; simpl.
    + exfalso. rewrite Forall_forall in Hsym.
      specialize (Hsym _ (py_get_In _ _ _ Es)). unfold is_symbol in Hsym.
      rewrite Eg in Hsym. discriminate.
    + split; simpl; rewrite kinds_app; simpl.
      * apply adjacent_differ_snoc; auto.
      * intros ks k E Hk. apply app_inj_tail in E as [_ <-]. discriminate.
    + assert (Ekinds : kinds tokens' = kinds (tokens st)).
      { unfold py_set in Eset. destruct (_ && _) eqn:Eb; [|discriminate].
        injection Eset as <-. unfold kinds.
        apply set_nth_map with (y := opened); [|now rewrite Et].
        unfold py_get in Eo. rewrite Eb in Eo.
        destruct (nth_error _ _); congruence. }
      split; simpl; rewrite kinds_app, Ekinds; simpl.
      * apply adjacent_differ_snoc; auto.
      * intros ks k E Hk. apply app_inj_tail in E as [_ <-]. discriminate.
    + pose proof (BFToken_get_Some _ _ Eg) as ->.
      split; simpl; rewrite kinds_app; simpl.
      * apply adjacent_differ_snoc; [exact Hadj|].
        intros ks' E. destruct (is_bracket op) eqn:Hb; [reflexivity|].
        exfalso. apply (Hlast ks' op E Hb).
        apply py_get_nth in Es; [exact Es|lia].
      * intros ks k E Hk. apply app_inj_tail in E as [_ <-].
        apply (count_run_maximal _ _ _ _ _ _ Ec). lia.
Qed.

(** X8.  Runs are collapsed whole: on a text made of instruction symbols
    only, [parse] never returns two neighbouring instructions of the same
    kind, brackets apart. *)
Theorem parse_collapses_whole_runs prog ops :
  parse prog = Ok ops ->
  Forall (fun c => is_symbol c = true) prog ->
  forall i t t',
    0 <= i -> py_get ops i = Ok t -> py_get ops (i + 1) = Ok t' ->
    token t = token t' -> is_bracket (token t) = true.
Proof.
  intros Hp Hsym i t t' Hi E1 E2 Et.
  apply parse_Ok in Hp as (st & Hs & _ & <- & _).
  apply (scanning_maximal_inv _ _ Hsym) in Hs as [Hadj _].
  apply (Hadj (Z.to_nat i)).
  - now apply kinds_nth.
  - replace (S (Z.to_nat i)) with (Z.to_nat (i + 1)) by lia.
    rewrite Et. apply kinds_nth; [lia|exact E2].
Qed.

Lemma parse_collapses_whole_runs_witness :
  is_bracket (token (mkCollapsedToken JumpForward (Some 3))) = true.
Proof.
  apply (parse_collapses_whole_runs (lit "[[]]")
           [mkCollapsedToken JumpForward (Some 3);
            mkCollapsedToken JumpForward (Some 2);
            mkCollapsedToken JumpBackward (Some 1);
            mkCollapsedToken JumpBackward (Some 0)]
           eq_refl) with (i := 0) (t' := mkCollapsedToken JumpForward (Some 2)).
  - repeat constructor.
  - lia.
  - reflexivity.
  - reflexivity.
  - reflexivity.
Defined.

(** ** Moving the data pointer *)

Lemma execute_MoveRight n st :
  execute (mkCollapsedToken MoveRight (Some n)) st
  = Ok (set_ptr st (if n + ptr st >? TAPE_SIZE - 1
                    then (n + ptr st) mod TAPE_SIZE else n + ptr st)).
Proof. reflexivity. Qed.

Lemma execute_MoveLeft n st :
  execute (mkCollapsedToken MoveLeft (Some n)) st
  = Ok (set_ptr st (if ptr st - n <? 0
                    then (ptr st - n) mod TAPE_SIZE else ptr st - n)).
Proof. reflexivity. Qed.

Lemma move_right_mod n st :
  tape_ok st -> 0 <= n ->
  execute (mkCollapsedToken MoveRight (Some n)) st
  = Ok (set_ptr st ((ptr st + n) mod TAPE_SIZE)).
Proof.
  intros [Hp _] Hn. rewrite execute_MoveRight. unfold TAPE_SIZE in *.
  destruct (Z.gtb_spec (n + ptr st) (30000 - 1)).
  - now rewrite (Z.add_comm n).
  - rewrite Z.mod_small by lia. now rewrite (Z.add_comm n).
Qed.

Lemma move_left_mod n st :
  tape_ok st -> 0 <= n ->
  execute (mkCollapsedToken MoveLeft (Some n)) st
  = Ok (set_ptr st ((ptr st - n) mod TAPE_SIZE)).
Proof.
  intros [Hp _] Hn. rewrite execute_MoveLeft. unfold TAPE_SIZE in *.
  destruct (Z.ltb_spec (ptr st - n) 0).
  - reflexivity.
  - now rewrite Z.mod_small by lia.
Qed.

Lemma set_ptr_tape_ok st p :
  tape_ok st -> 0 <= p < TAPE_SIZE -> tape_ok (set_ptr st p).
Proof. intros [_ Hl] Hp. split; [exact Hp|exact Hl]. Qed.

Lemma mod_tape_bound a : 0 <= a mod TAPE_SIZE < TAPE_SIZE.
Proof. apply Z.mod_pos_bound. unfold TAPE_SIZE. lia. Qed.

(** X9.  With the data pointer inside the tape, a move by a run length
    [n >= 0] is addition or subtraction modulo the tape size: moving right
    leaves the pointer at [(ptr + n) mod 30000], moving left at
    [(ptr - n) mod 30000], and neither raises. *)
Theorem move_wraps_around n st :
  tape_ok st -> 0 <= n ->
  execute (mkCollapsedToken MoveRight (Some n)) st
    = Ok (set_ptr st ((ptr st + n) mod TAPE_SIZE)) /\
  execute (mkCollapsedToken MoveLeft (Some n)) st
    = Ok (set_ptr st ((ptr st - n) mod TAPE_SIZE)).
Proof.
  intros Hok Hn. split; [now apply move_right_mod|now apply move_left_mod].
Qed.

Lemma move_wraps_around_witness :
  execute (mkCollapsedToken MoveRight (Some 5))
    (set_ptr (initial []) 29998)
    = Ok (set_ptr (set_ptr (initial []) 29998)
            ((29998 + 5) mod TAPE_SIZE)) /\
  execute (mkCollapsedToken MoveLeft (Some 5))
    (set_ptr (initial []) 29998)
    = Ok (set_ptr (set_ptr (initial []) 29998)
            ((29998 - 5) mod TAPE_SIZE)).
Proof.
  apply (move_wraps_around 5 (set_ptr (initial []) 29998)).
  - split; [unfold TAPE_SIZE; cbn [ptr set_ptr]; lia|].
    unfold set_ptr, initial. cbn [tape]. rewrite repeat_length. reflexivity.
  - lia.
Defined.

(** X10.  Moves undo each other and wrap around whole turns: with the data
    pointer inside the tape and [n >= 0], moving right by [n] and then left
    by [n] restores the state, and so does moving right, or left, by a
    multiple of the tape size. *)
Theorem moves_round_trip n k st :
  tape_ok st -> 0 <= n -> 0 <= k ->
  (st1 <- execute (mkCollapsedToken MoveRight (Some n)) st ;;
   execute (mkCollapsedToken MoveLeft (Some n)) st1) = Ok st /\
  (st1 <- execute (mkCollapsedToken MoveLeft (Some n)) st ;;
   execute (mkCollapsedToken MoveRight (Some n)) st1) = Ok st /\
  execute (mkCollapsedToken MoveRight (Some (k * TAPE_SIZE))) st = Ok st /\
  execute (mkCollapsedToken MoveLeft (Some (k * TAPE_SIZE))) st = Ok st.
Proof.
  intros Hok Hn Hk. pose proof Hok as [Hp Hl].
  assert (Hsame : forall p, p = ptr st -> set_ptr st p = st)
    by (intros p ->; now destruct st).
  assert (Hset : forall p q, set_ptr (set_ptr st p) q = set_ptr st q)
    by reflexivity.
  assert (HT : 0 < TAPE_SIZE) by (unfold TAPE_SIZE; lia).
  split; [|split; [|split]].
  - rewrite move_right_mod by assumption. simpl bind.
    rewrite move_left_mod
      by (try apply set_ptr_tape_ok; auto using mod_tape_bound).
    rewrite Hset. f_equal. apply Hsame. simpl ptr.
    rewrite Zminus_mod_idemp_l.
    replace (ptr st + n - n) with (ptr st) by lia.
    apply Z.mod_small. exact Hp.
  - rewrite move_left_mod by assumption. simpl bind.
    rewrite move_right_mod
      by (try apply set_ptr_tape_ok; auto using mod_tape_bound).
    rewrite Hset. f_equal. apply Hsame. simpl ptr.
    rewrite Zplus_mod_idemp_l.
    replace (ptr st - n + n) with (ptr st) by lia.
    apply Z.mod_small. exact Hp.
  - rewrite move_right_mod by (auto; nia). f_equal. apply Hsame.
    rewrite Z.mod_add by lia. apply Z.mod_small. exact Hp.
  - rewrite move_left_mod by (auto; nia). f_equal. apply Hsame.
    replace (ptr st - k * TAPE_SIZE) with (ptr st + (- k) * TAPE_SIZE) by lia.
    rewrite Z.mod_add by lia. apply Z.mod_small. exact Hp.
Qed.

Lemma moves_round_trip_witness :
  execute (mkCollapsedToken MoveRight (Some (2 * TAPE_SIZE)))
    (set_ptr (initial []) 7)
    = Ok (set_ptr (initial []) 7).
Proof.
  apply (moves_round_trip 3 2 (set_ptr (initial []) 7)).
  - split; [unfold TAPE_SIZE; cbn [ptr set_ptr]; lia|].
    unfold set_ptr, initial. cbn [tape]. rewrite repeat_length. reflexivity.
  - lia.
  - lia.
Defined.

(** ** Reading and writing *)

Lemma for_range_add a b body st :
  for_range (a + b) body st = (st1 <- for_range a body st ;; for_range b body st1).
Proof.
  revert st. induction a as [|a IH]; intros st; simpl; [reflexivity|].
  unfold bind at 1 3. destruct (body st); [apply IH|reflexivity].
Qed.

(** [n] writes append [n] copies of the character of the current cell. *)
Lemma for_range_write n st cell :
  py_get (tape st) (ptr st) = Ok cell -> is_code_point cell ->
  for_range n write_one st = Ok (set_stdout st (stdout st ++ repeat cell n)).
Proof.
  intros Hc Hcp. revert st Hc. induction n as [|n IH]; intros st Hc; simpl.
  - rewrite app_nil_r. now destruct st.
  - unfold bind, write_one at 1, bind. rewrite Hc. unfold chr.
    unfold is_code_point in Hcp.
    destruct (Z.leb_spec 0 cell); [|lia].
    destruct (Z.ltb_spec cell 1114112); [|lia]. simpl.
    rewrite IH by exact Hc. unfold set_stdout. simpl.
    now rewrite <- app_assoc.
Qed.

(** X11.  A write of run length [n >= 0] appends [n] copies of the character
    whose code is in the current cell to the output and changes nothing
    else. *)
Theorem write_repeats_cell n st cell :
  py_get (tape st) (ptr st) = Ok cell -> is_code_point cell -> 0 <= n ->
  execute (mkCollapsedToken PutStdOut (Some n)) st
    = Ok (set_stdout st (stdout st ++ repeat cell (Z.to_nat n))).
Proof.
  intros Hc Hcp Hn. rewrite execute_PutStdOut. now apply for_range_write.
Qed.

Lemma write_repeats_cell_witness :
  execute (mkCollapsedToken PutStdOut (Some 3)) (mkState 0 0 [65] [] [66])
    = Ok (set_stdout (mkState 0 0 [65] [] [66])
            ([66] ++ repeat 65 (Z.to_nat 3))).
Proof.
  apply (write_repeats_cell 3 (mkState 0 0 [65] [] [66]) 65).
  - reflexivity.
  - unfold is_code_point. lia.
  - lia.
Defined.

(** X12.  A read of run length [n >= 1] takes [n] characters off the input
    and leaves in the current cell the code of the last of them, or 0 when
    the input had fewer than [n]: the earlier ones are overwritten.  It
    changes nothing else. *)
Theorem read_keeps_last_character n st cell :
  py_get (tape st) (ptr st) = Ok cell -> 1 <= n ->
  exists tape',
    py_set (tape st) (ptr st) (nth (Z.to_nat n - 1) (stdin_iter st) 0)
      = Ok tape' /\
    execute (mkCollapsedToken ReadStdIn (Some n)) st
      = Ok (mkState (loc st) (ptr st) tape'
              (skipn (Z.to_nat n) (stdin_iter st)) (stdout st)).
Proof.
  intros Hc Hn. rewrite execute_ReadStdIn.
  apply (for_range_read (range_len n) st cell Hc). unfold range_len. lia.
Qed.

Lemma read_keeps_last_character_witness :
  exists tape',
    py_set [7] 0 (nth (Z.to_nat 2 - 1) [65; 66; 67] 0) = Ok tape' /\
    execute (mkCollapsedToken ReadStdIn (Some 2)) (mkState 0 0 [7] [65; 66; 67] [])
      = Ok (mkState 0 0 tape' (skipn (Z.to_nat 2) [65; 66; 67]) []).
Proof.
  apply (read_keeps_last_character 2 (mkState 0 0 [7] [65; 66; 67] []) 7).
  - reflexivity.
  - lia.
Defined.

(** ** Run lengths compose *)

Lemma to_u8_add cell n m : to_u8 (to_u8 (cell + n) + m) = to_u8 (cell + (n + m)).
Proof.
  unfold to_u8. rewrite Zplus_mod_idemp_l. f_equal. lia.
Qed.

Lemma to_u8_sub cell n m : to_u8 (to_u8 (cell - n) - m) = to_u8 (cell - (n + m)).
Proof.
  unfold to_u8. rewrite Zminus_mod_idemp_l. f_equal. lia.
Qed.

(** X13.  Collapsing a run changes nothing: with the data pointer inside the
    tape, executing an instruction that is not a bracket with run length
    [n + m] is executing it with run length [n] and then with run length
    [m] (for [n, m >= 0]), errors included. *)
Theorem run_length_splits k n m st :
  is_bracket k = false -> tape_ok st -> 0 <= n -> 0 <= m ->
  execute (mkCollapsedToken k (Some (n + m))) st
  = (st1 <- execute (mkCollapsedToken k (Some n)) st ;;
     execute (mkCollapsedToken k (Some m)) st1).
Proof.
  intros Hk Hok Hn Hm. pose proof Hok as [Hp Hl].
  destruct (tape_ok_cell st Hok) as [cell Hc].
  destruct k; try discriminate.
  - rewrite !move_right_mod by (auto; lia). simpl bind.
    rewrite move_right_mod
      by (try apply set_ptr_tape_ok; auto using mod_tape_bound).
    unfold set_ptr. simpl. rewrite Zplus_mod_idemp_l. do 3 f_equal. lia.
  - rewrite !move_left_mod by (auto; lia). simpl bind.
    rewrite move_left_mod
      by (try apply set_ptr_tape_ok; auto using mod_tape_bound).
    unfold set_ptr. simpl. rewrite Zminus_mod_idemp_l. do 3 f_equal. lia.
  - rewrite !execute_Incr. unfold bind. rewrite Hc.
    destruct (py_set_defined _ _ (to_u8 (cell + n)) _ Hc) as [t1 E1].
    rewrite E1. rewrite execute_Incr. unfold bind. simpl.
    rewrite (py_set_get _ _ _ _ E1).
    destruct (py_set_defined _ _ (to_u8 (cell + (n + m))) _ Hc) as [t2 E2].
    rewrite E2. rewrite to_u8_add.
    destruct (py_set_defined _ _ (to_u8 (cell + (n + m))) _
                (py_set_get _ _ _ _ E1)) as [t3 E3].
    rewrite E3. pose proof (py_set_set _ _ _ _ _ _ E1 E3) as E4.
    rewrite E2 in E4. now injection E4 as ->.
  - rewrite !execute_Decr. unfold bind. rewrite Hc.
    destruct (py_set_defined _ _ (to_u8 (cell - n)) _ Hc) as [t1 E1].
    rewrite E1. rewrite execute_Decr. unfold bind. simpl.
    rewrite (py_set_get _ _ _ _ E1).
    destruct (py_set_defined _ _ (to_u8 (cell - (n + m))) _ Hc) as [t2 E2].
    rewrite E2. rewrite to_u8_sub.
    destruct (py_set_defined _ _ (to_u8 (cell - (n + m))) _
                (py_set_get _ _ _ _ E1)) as [t3 E3].
    rewrite E3. pose proof (py_set_set _ _ _ _ _ _ E1 E3) as E4.
    rewrite E2 in E4. now injection E4 as ->.
  - rewrite !execute_ReadStdIn. unfold range_len.
    rewrite Z2Nat.inj_add, for_range_add by lia. unfold bind.
    destruct (for_range (Z.to_nat n) read_one st); [|reflexivity].
    now rewrite execute_ReadStdIn.
  - rewrite !execute_PutStdOut. unfold range_len.
    rewrite Z2Nat.inj_add, for_range_add by lia. unfold bind.
    destruct (for_range (Z.to_nat n) write_one st); [|reflexivity].
    now rewrite execute_PutStdOut.
Qed.

Lemma run_length_splits_witness :
  execute (mkCollapsedToken Incr (Some (200 + 100))) (initial [])
  = (st1 <- execute (mkCollapsedToken Incr (Some 200)) (initial []) ;;
     execute (mkCollapsedToken Incr (Some 100)) st1).
Proof.
  apply (run_length_splits Incr 200 100 (initial [])).
  - reflexivity.
  - split; [unfold TAPE_SIZE; cbn [ptr initial]; lia|].
    unfold initial. cbn [tape]. rewrite repeat_length. reflexivity.
  - lia.
  - lia.
Defined.

(** ** What a step leaves alone *)

Lemma py_set_other {A : Type} (l l' : list A) i j x :
  py_set l i x = Ok l' -> 0 <= i -> 0 <= j -> i <> j ->
  py_get l' j = py_get l j.
Proof.
  unfold py_set, py_index. intros E Hi Hj Hne.
  destruct (Z.ltb_spec i 0); [lia|].
  destruct (_ && _); [|discriminate]. injection E as <-.
  now apply py_get_set_other.
Qed.

Lemma for_range_read_cells n st st' :
  for_range n read_one st = Ok st' -> 0 <= ptr st ->
  forall i, 0 <= i -> i <> ptr st ->
            py_get (tape st') i = py_get (tape st) i.
Proof.
  revert st. induction n as [|n IH]; simpl; intros st.
  - now intros [= <-].
  - unfold bind, read_one at 1, bind.
    destruct (next (stdin_iter st) 0) as [c it]. simpl.
    destruct (py_set (tape st) (ptr st) (ord c)) as [tape'|] eqn:Es;
      [|discriminate].
    intros E Hp i Hi Hne. rewrite (IH _ E) by (simpl; auto). simpl.
    now apply (py_set_other _ _ _ _ _ Es).
Qed.

(** X14.  Executing an instruction changes no cell but the current one and
    never changes the length of the tape: with the data pointer inside the
    tape, every cell at another index holds afterwards what it held
    before. *)
Theorem execute_touches_only_current_cell op st st1 :
  tape_ok st -> execute op st = Ok st1 ->
  len (tape st1) = len (tape st) /\
  forall i, 0 <= i -> i <> ptr st ->
            py_get (tape st1) i = py_get (tape st) i.
Proof.
  intros [Hp Hl]. unfold execute, bind. destruct op as [k v]. simpl.
  destruct k; simpl; destruct v as [n|]; simpl; case_results;
    try discriminate; try destruct (_ =? 0); simpl; try discriminate;
    intros [= <-];
    repeat match goal with
           | E : Ok _ = Ok _ |- _ => injection E as <-
           end;
    simpl; auto.
  - match goal with E : py_set _ _ _ = _ |- _ =>
      split; [now rewrite (py_set_length _ _ _ _ E)|];
      intros i Hi Hne; apply (py_set_other _ _ _ _ _ E); auto; lia end.
  - match goal with E : py_set _ _ _ = _ |- _ =>
      split; [now rewrite (py_set_length _ _ _ _ E)|];
      intros i Hi Hne; apply (py_set_other _ _ _ _ _ E); auto; lia end.
  - match goal with E : for_range _ _ _ = _ |- _ =>
      split;
      [now destruct (for_range_read_frame _ _ _ E) as (_ & _ & _ & -> & _)
      |apply (for_range_read_cells _ _ _ E); lia] end.
  - match goal with E : for_range _ _ _ = _ |- _ =>
      destruct (for_range_write_frame _ _ _ E) as (_ & _ & -> & _) end.
    auto.
Qed.

Lemma execute_touches_only_current_cell_witness :
  len (tape (set_ptr (initial []) 1)) = len (tape (initial [])).
Proof.
  apply (execute_touches_only_current_cell
           (mkCollapsedToken MoveRight (Some 1)) (initial [])).
  - split; [unfold TAPE_SIZE; cbn [ptr initial]; lia|].
    unfold initial. cbn [tape]. rewrite repeat_length. reflexivity.
  - exact (execute_MoveRight 1 (initial [])).
Defined.

Lemma for_range_read_stdin n st st' :
  for_range n read_one st = Ok st' ->
  stdin_iter st' = skipn n (stdin_iter st).
Proof.
  revert st. induction n as [|n IH]; simpl; intros st.
  - now intros [= <-].
  - unfold bind, read_one at 1, bind.
    destruct (next (stdin_iter st) 0) as [c it] eqn:En. simpl.
    destruct (py_set (tape st) (ptr st) (ord c)); [|discriminate].
    intros E. apply IH in E. simpl in E. rewrite E.
    destruct (stdin_iter st) as [|c' r]; simpl in En; injection En as <- <-;
      [now rewrite skipn_nil|reflexivity].
Qed.

Lemma for_range_write_stdout n st st' :
  for_range n write_one st = Ok st' -> exists w, stdout st' = stdout st ++ w.
Proof.
  revert st. induction n as [|n IH]; simpl; intros st.
  - intros [= <-]. exists []. now rewrite app_nil_r.
  - unfold bind, write_one at 1, bind.
    destruct (py_get (tape st) (ptr st)); [|discriminate].
    destruct (chr a) as [c|]; [|discriminate]. intros E.
    apply IH in E as [w E]. simpl in E. exists (c :: w).
    rewrite E, <- app_assoc. reflexivity.
Qed.

(** X15.  A step only appends to the output and only takes characters off
    the front of the input: the output before the step is a prefix of the
    output after it, and the input left after it is a suffix of the input
    left before it. *)
Theorem step_appends_and_consumes ops st st' :
  step ops st = Ok st' ->
  exists w k, stdout st' = stdout st ++ w /\
              stdin_iter st' = skipn k (stdin_iter st).
Proof.
  unfold step, bind.
  destruct (py_get ops (loc st)) as [op|]; [|discriminate].
  destruct (execute op st) as [st1|] eqn:Ex; [|discriminate].
  intros [= <-]. simpl. revert Ex.
  unfold execute, bind. destruct op as [k v]. simpl.
  destruct k; simpl; destruct v as [n|]; simpl; case_results;
    try discriminate; try destruct (_ =? 0); simpl; try discriminate;
    intros [= <-];
    repeat match goal with
           | E : Ok _ = Ok _ |- _ => injection E as <-
           end;
    simpl;
    try (exists [], O; now rewrite app_nil_r).
  - match goal with E : for_range _ _ _ = _ |- _ =>
      exists [], (range_len n);
      destruct (for_range_read_frame _ _ _ E) as (_ & _ & -> & _);
      rewrite (for_range_read_stdin _ _ _ E) end.
    now rewrite app_nil_r.
  - match goal with E : for_range _ _ _ = _ |- _ =>
      destruct (for_range_write_stdout _ _ _ E) as [w ->];
      destruct (for_range_write_frame _ _ _ E) as (_ & _ & _ & ->) end.
    now exists w, O.
Qed.

Lemma step_appends_and_consumes_witness :
  exists w k, stdout (mkState 1 0 [65] [66] [67; 65; 65])
                = stdout (mkState 0 0 [65] [66] [67]) ++ w /\
              stdin_iter (mkState 1 0 [65] [66] [67; 65; 65])
                = skipn k (stdin_iter (mkState 0 0 [65] [66] [67])).
Proof.
  apply (step_appends_and_consumes [mkCollapsedToken PutStdOut (Some 2)]).
  reflexivity.
Defined.

(** ** Runs of parsed programs do not fault *)

Lemma cell_range_code_point c : in_cell_range c -> is_code_point c.
Proof. unfold in_cell_range, is_code_point. lia. Qed.

Lemma Forall_skipn {A : Type} (P : A -> Prop) n (l : list A) :
  Forall P l -> Forall P (skipn n l).
Proof.
  intros H. rewrite <- (firstn_skipn n l) in H.
  now apply Forall_app in H as [_ H].
Qed.

Lemma for_range_read_code_points n st st' :
  Forall is_code_point (tape st) -> Forall is_code_point (stdin_iter st) ->
  for_range n read_one st = Ok st' ->
  Forall is_code_point (tape st').
Proof.
  revert st. induction n as [|n IH]; simpl; intros st Ht Hin.
  - now intros [= <-].
  - unfold bind, read_one at 1, bind.
    destruct (next (stdin_iter st) 0) as [c it] eqn:En. simpl.
    destruct (py_set (tape st) (ptr st) (ord c)) as [tape'|] eqn:Es;
      [|discriminate].
    assert (Hc : is_code_point c /\ Forall is_code_point it).
    { destruct (stdin_iter st) as [|c' r]; simpl in En; injection En as <- <-.
      - split; [unfold is_code_point; lia|constructor].
      - now inversion Hin. }
    apply IH; simpl; [|tauto].
    apply (py_set_Forall _ _ _ _ _ Ht (proj1 Hc) Es).
Qed.

(** Cells and pending input stay code points. *)
Lemma execute_code_points op st st1 :
  Forall is_code_point (tape st) -> Forall is_code_point (stdin_iter st) ->
  execute op st = Ok st1 ->
  Forall is_code_point (tape st1) /\ Forall is_code_point (stdin_iter st1).
Proof.
  intros Ht Hin. unfold execute, bind. destruct op as [k v]. simpl.
  destruct k; simpl; destruct v as [n|]; simpl; case_results;
    try discriminate; try destruct (_ =? 0); simpl; try discriminate;
    intros [= <-];
    repeat match goal with
           | E : Ok _ = Ok _ |- _ => injection E as <-
           end;
    simpl; auto.
  - split; [|exact Hin].
    match goal with E : py_set _ _ _ = _ |- _ =>
      exact (py_set_Forall _ _ _ _ _ Ht
               (cell_range_code_point _ (to_u8_range _)) E) end.
  - split; [|exact Hin].
    match goal with E : py_set _ _ _ = _ |- _ =>
      exact (py_set_Forall _ _ _ _ _ Ht
               (cell_range_code_point _ (to_u8_range _)) E) end.
  - match goal with E : for_range _ _ _ = _ |- _ =>
      split; [exact (for_range_read_code_points _ _ _ Ht Hin E)|];
      rewrite (for_range_read_stdin _ _ _ E) end.
    now apply Forall_skipn.
  - match goal with E : for_range _ _ _ = _ |- _ =>
      destruct (for_range_write_frame _ _ _ E) as (_ & _ & -> & ->) end.
    auto.
Qed.

Lemma reaches_code_points ops stdin st :
  Forall is_code_point stdin -> reaches ops stdin st ->
  Forall is_code_point (tape st) /\ Forall is_code_point (stdin_iter st).
Proof.
  intros Hin. induction 1 as [|st st' Hr [IHt IHi] Hlt Hstep].
  - split; [|exact Hin]. apply Forall_forall. intros c Hc.
    apply repeat_spec in Hc. subst. unfold is_code_point. lia.
  - unfold step, bind in Hstep.
    destruct (py_get ops (loc st)) as [op|]; [|discriminate].
    destruct (execute op st) as [st1|] eqn:Ex; [|discriminate].
    injection Hstep as <-. simpl.
    exact (execute_code_points _ _ _ IHt IHi Ex).
Qed.

(** An instruction with the operand its kind needs executes without
    raising when the pointer is inside the tape and the cells are code
    points. *)
Lemma execute_defined op st :
  run_length_ok op ->
  (is_bracket (token op) = true -> exists v, value op = Some v) ->
  tape_ok st -> Forall is_code_point (tape st) ->
  exists st1, execute op st = Ok st1.
Proof.
  intros Hlen Hjump Hok Hcp.
  destruct (tape_ok_cell st Hok) as [cell Hc].
  destruct op as [k v]. simpl in *.
  destruct (is_bracket k) eqn:Hb.
  - destruct (Hjump eq_refl) as [j ->].
    destruct k; try discriminate; unfold execute, bind; simpl; rewrite Hc;
      destruct (cell =? 0); simpl; eauto.
  - destruct (Hlen Hb) as (n & [= ->] & Hn).
    destruct k; try discriminate.
    + rewrite execute_MoveRight. eauto.
    + rewrite execute_MoveLeft. eauto.
    + rewrite execute_Incr. unfold bind. rewrite Hc.
      destruct (py_set_defined _ _ (to_u8 (cell + n)) _ Hc) as [t ->]. eauto.
    + rewrite execute_Decr. unfold bind. rewrite Hc.
      destruct (py_set_defined _ _ (to_u8 (cell - n)) _ Hc) as [t ->]. eauto.
    + rewrite execute_ReadStdIn.
      destruct (for_range_read (range_len n) st cell Hc) as (t & _ & ->);
        [unfold range_len; lia|eauto].
    + rewrite execute_PutStdOut. rewrite (for_range_write _ _ cell Hc); eauto.
      rewrite Forall_forall in Hcp. apply Hcp. eapply py_get_In; eauto.
Qed.

Lemma step_defined prog ops stdin st :
  parse prog = Ok ops -> Forall is_code_point stdin ->
  reaches ops stdin st -> loc st < len ops ->
  exists st', step ops st = Ok st'.
Proof.
  intros Hp Hin Hr Hlt.
  pose proof (reaches_loc _ _ _ _ Hp Hr) as Hloc.
  destruct (py_get_defined ops (loc st)) as [op Eop]; [lia|].
  destruct (execute_defined op st) as [st1 Ex].
  - pose proof (parse_run_lengths _ _ Hp) as Hl.
    rewrite Forall_forall in Hl. apply Hl. eapply py_get_In; eauto.
  - intros Hb. destruct (token op) eqn:Et; try discriminate.
    + destruct (parse_forward _ _ _ _ Hp (proj1 Hloc) Eop Et) as (j & -> & _).
      eauto.
    + destruct (parse_backward _ _ _ _ Hp (proj1 Hloc) Eop Et) as (j & -> & _).
      eauto.
  - exact (reaches_tape_ok _ _ _ _ Hp Hr).
  - exact (proj1 (reaches_code_points _ _ _ Hin Hr)).
  - unfold step, bind. rewrite Eop, Ex. eauto.
Qed.

Lemma run_loop_no_raise prog ops stdin fuel st e :
  parse prog = Ok ops -> Forall is_code_point stdin ->
  reaches ops stdin st -> run_loop fuel ops st <> Raised e.
Proof.
  intros Hp Hin. revert st. induction fuel as [|fuel IH]; intros st Hr; simpl;
    destruct (Z.ltb_spec (loc st) (len ops)) as [Hlt|]; try discriminate.
  destruct (step_defined _ _ _ _ Hp Hin Hr Hlt) as [st' Es]. rewrite Es.
  apply IH. eapply reaches_step; eauto.
Qed.

(** X16.  Run on an input of characters, a program that [parse] accepted
    never raises: in every state of the run in which the loop goes on, the
    step succeeds, so the run ends by leaving the loop or not at all. *)
Theorem parsed_program_never_faults prog ops stdin :
  parse prog = Ok ops -> Forall is_code_point stdin ->
  (forall st, reaches ops stdin st -> loc st < len ops ->
              exists st', step ops st = Ok st') /\
  (forall fuel e, run fuel ops stdin <> Raised e).
Proof.
  intros Hp Hin. split.
  - intros st. now apply (step_defined prog).
  - intros fuel e. apply (run_loop_no_raise prog ops stdin); auto.
    constructor.
Qed.

Lemma parsed_program_never_faults_witness :
  exists st', step [mkCollapsedToken ReadStdIn (Some 1);
                    mkCollapsedToken PutStdOut (Some 1)] (initial [65])
              = Ok st'.
Proof.
  destruct (parsed_program_never_faults (lit ",.")
              [mkCollapsedToken ReadStdIn (Some 1);
               mkCollapsedToken PutStdOut (Some 1)] [65]) as [Hstep _].
  - reflexivity.
  - constructor; [unfold is_code_point; lia|constructor].
  - apply Hstep; [constructor|reflexivity].
Defined.

(** X17.  The only exceptions that escape [run_bf], on an input of
    characters, are those of [parse]: a [MismatchedBrackets] with a
    position, raised before anything is executed. *)
Theorem run_bf_raises_only_mismatch fuel prog stdin e :
  Forall is_code_point stdin ->
  run_bf fuel prog stdin = Raised e ->
  parse (bf_to_one_line prog) = Raise e /\
  exists n, e = MismatchedBrackets (Position n).
Proof.
  intros Hin. unfold run_bf.
  pose proof (parse_outcome (bf_to_one_line prog)) as H.
  destruct (parse (bf_to_one_line prog)) as [ops|e'] eqn:Ep.
  - intros E. exfalso. revert E. apply (run_loop_no_raise _ _ _ _ _ _ Ep Hin).
    constructor.
  - intros [= ->]. split; [reflexivity|].
    destruct H as [(k & -> & _)|(i & d & -> & _)]; eauto.
Qed.

Lemma run_bf_raises_only_mismatch_witness :
  parse (bf_to_one_line (lit "+]"))
    = Raise (MismatchedBrackets (Position 2)) /\
  exists n, MismatchedBrackets (Position 2) = MismatchedBrackets (Position n).
Proof.
  apply (run_bf_raises_only_mismatch 0 (lit "+]") []).
  - constructor.
  - reflexivity.
Defined.

(** X18.  In every state of a run of a parsed program the data pointer is
    an index into the tape, which keeps its 30000 cells, so the current
    cell can always be read; and on an input of characters every cell
    holds a code point. *)
Theorem run_keeps_pointer_in_tape prog ops stdin st :
  parse prog = Ok ops -> reaches ops stdin st ->
  0 <= ptr st < TAPE_SIZE /\ len (tape st) = TAPE_SIZE /\
  (exists cell, py_get (tape st) (ptr st) = Ok cell) /\
  (Forall is_code_point stdin -> Forall is_code_point (tape st)).
Proof.
  intros Hp Hr. pose proof (reaches_tape_ok _ _ _ _ Hp Hr) as Hok.
  destruct Hok as [Hptr Hl]. split; [exact Hptr|]. split; [exact Hl|].
  split; [apply tape_ok_cell; now split|].
  intros Hin. exact (proj1 (reaches_code_points _ _ _ Hin Hr)).
Qed.

Lemma run_keeps_pointer_in_tape_witness :
  0 <= ptr (initial []) < TAPE_SIZE.
Proof.
  apply (run_keeps_pointer_in_tape (lit "<")
           [mkCollapsedToken MoveLeft (Some 1)] [] (initial [])).
  - reflexivity.
  - constructor.
Defined.
